(** * Nussinov RNA folding (nussinov.cpp): a shallow embedding and its properties

    The C++ program is embedded function by function.  [int] values are
    modelled as [Z]: every index and loop bound the program computes lies
    within five of the interval from 0 to N, and every score between 0 and
    N (lemma [spec_Score_range]), so no [int] operation leaves the 32-bit
    range for a sequence whose length fits in an [int].  The functions are
    also stated on arguments that nussinov never passes, and there the
    statements keep to the arguments on which [Z] and [int] agree: a size
    N >= 0 for [initialize], a window with 0 <= i <= j + 1 for [OPT], and for
    [traceback] a table whose cells are small enough for the sums of its
    tests to fit in an [int] ([int_cells]).
    A [string] is a [list ascii], a [vector<vector<int>>] a [list (list Z)],
    a [vector<pair<int,int>>] a [list (Z * Z)].  Reading or writing a vector
    or a string outside its bounds is undefined in C++; the embedding makes
    it the explicit error [OutOfBounds].  The two recursive functions take a
    [fuel] argument, and [OutOfFuel] is the answer of a run that exhausts it. *)

From Stdlib Require Import ZArith Ascii String Lia.
From stdpp Require Import base tactics option list strings.

Local Open Scope Z_scope.

(** ** Results of fallible computations *)

Inductive res (A : Type) : Type :=
| Ok (a : A)
| OutOfBounds
| OutOfFuel.

Arguments Ok {A} a.
Arguments OutOfBounds {A}.
Arguments OutOfFuel {A}.

Definition bind {A B : Type} (m : res A) (f : A -> res B) : res B :=
  match m with
  | Ok a => f a
  | OutOfBounds => OutOfBounds
  | OutOfFuel => OutOfFuel
  end.

Notation "'do' x <- m ; k" := (bind m (fun x => k))
  (at level 10, x name, m at level 100, k at level 200).

(** [for (int k = lo; k < hi; ++k) body], threading the state [st]. *)
Fixpoint for_loop {St : Type} (n : nat) (k : Z)
    (body : Z -> St -> res St) (st : St) : res St :=
  match n with
  | O => Ok st
  | S n' => do st' <- body k st ; for_loop n' (k + 1) body st'
  end.

Definition for_range {St : Type} (lo hi : Z)
    (body : Z -> St -> res St) (st : St) : res St :=
  for_loop (Z.to_nat (hi - lo)) lo body st.

(** [for (auto s : v) body]. *)
Fixpoint for_each {A St : Type} (v : list A)
    (body : A -> St -> res St) (st : St) : res St :=
  match v with
  | [] => Ok st
  | s :: v' => do st' <- body s st ; for_each v' body st'
  end.

(** ** Strings and tables *)

Abbreviation table := (list (list Z)).

(** [s[t]] *)
Definition char_at (s : list ascii) (t : Z) : res ascii :=
  if t <? 0 then OutOfBounds
  else match s !! Z.to_nat t with
       | Some c => Ok c
       | None => OutOfBounds
       end.

(** [s[t] = c] *)
Definition set_char (s : list ascii) (t : Z) (c : ascii) : res (list ascii) :=
  if t <? 0 then OutOfBounds
  else if (Z.to_nat t <? length s)%nat then Ok (<[Z.to_nat t := c]> s)
  else OutOfBounds.

(** [DP[i][j]] *)
Definition get2 (DP : table) (i j : Z) : res Z :=
  if (i <? 0) || (j <? 0) then OutOfBounds
  else match DP !! Z.to_nat i with
       | Some row =>
           match row !! Z.to_nat j with
           | Some v => Ok v
           | None => OutOfBounds
           end
       | None => OutOfBounds
       end.

(** [DP[i][j] = v] *)
Definition set2 (DP : table) (i j : Z) (v : Z) : res table :=
  if (i <? 0) || (j <? 0) then OutOfBounds
  else match DP !! Z.to_nat i with
       | Some row =>
           if (Z.to_nat j <? length row)%nat
           then Ok (<[Z.to_nat i := <[Z.to_nat j := v]> row]> DP)
           else OutOfBounds
       | None => OutOfBounds
       end.

(** [*max_element(v.begin(), v.end())]; dereferencing [end()] of an empty
    vector is out of bounds. *)
Definition max_element (v : list Z) : res Z :=
  match v with
  | [] => OutOfBounds
  | x :: v' => Ok (fold_left Z.max v' x)
  end.

(** ** The program *)

Definition pair_check (a b : ascii) : bool :=
  (Ascii.eqb a "A" && Ascii.eqb b "U")
  || (Ascii.eqb a "U" && Ascii.eqb b "A")
  || (Ascii.eqb a "C" && Ascii.eqb b "G")
  || (Ascii.eqb a "G" && Ascii.eqb b "C").

(** Body of the loop of [OPT]: [self] stands for the recursive calls.
    [OPT] is the source's function on the windows with 0 <= i <= j + 1, where
    [j - 4] and the other index computations stay in the range of [int]. *)
Definition OPT_body (self : Z -> Z -> res Z) (i j : Z)
    (sequence : list ascii) (t : Z) (pairing : list Z) : res (list Z) :=
  do ct <- char_at sequence t ;
  do cj <- char_at sequence j ;
  if pair_check ct cj then
    do l <- self i (t - 1) ;
    do r <- self (t + 1) (j - 1) ;
    Ok (pairing ++ [1 + l + r])
  else Ok pairing.

Fixpoint OPT (fuel : nat) (i j : Z) (sequence : list ascii) (DP : table)
    : res Z :=
  match fuel with
  | O => OutOfFuel
  | S fuel' =>
      if i >=? j - 4 then Ok 0
      else
        do unpaired <- OPT fuel' i (j - 1) sequence DP ;
        do pairing <- for_range i (j - 4)
                     (OPT_body (fun a b => OPT fuel' a b sequence DP)
                        i j sequence) [] ;
        let pairing := match pairing with [] => [0] | _ => pairing end in
        do paired <- max_element pairing ;
        Ok (Z.max unpaired paired)
  end.

Abbreviation pairs := (list (Z * Z)).

(** The loop of [traceback], from [k] on, with [n] iterations left; a
    [break] is a return out of the loop.  The sums of the two tests are sums
    of integers: they are the source's [int] sums on a table whose cells
    keep them in range ([int_cells]), as those of nussinov's table do. *)
Fixpoint traceback_scan (self : Z -> Z -> pairs -> res pairs) (i j : Z)
    (DP : table) (sequence : list ascii) (n : nat) (k : Z)
    (structure : pairs) : res pairs :=
  match n with
  | O => Ok structure
  | S n' =>
      do ck <- char_at sequence k ;
      do cj <- char_at sequence j ;
      if pair_check ck cj then
        if k - 1 <? 0 then
          do dij <- get2 DP i j ;
          do dr <- get2 DP (k + 1) (j - 1) ;
          if dij =? dr + 1 then
            self (k + 1) (j - 1) (structure ++ [(k, j)])
          else traceback_scan self i j DP sequence n' (k + 1) structure
        else
          do dij <- get2 DP i j ;
          do dl <- get2 DP i (k - 1) ;
          do dr <- get2 DP (k + 1) (j - 1) ;
          if dij =? dl + dr + 1 then
            do structure <- self i (k - 1) (structure ++ [(k, j)]) ;
            self (k + 1) (j - 1) structure
          else traceback_scan self i j DP sequence n' (k + 1) structure
      else traceback_scan self i j DP sequence n' (k + 1) structure
  end.

Fixpoint traceback (fuel : nat) (i j : Z) (structure : pairs) (DP : table)
    (sequence : list ascii) : res pairs :=
  match fuel with
  | O => OutOfFuel
  | S fuel' =>
      if j <=? i then Ok structure
      else
        do dij <- get2 DP i j ;
        do dij1 <- get2 DP i (j - 1) ;
        if dij =? dij1 then traceback fuel' i (j - 1) structure DP sequence
        else
          traceback_scan (fun a b st => traceback fuel' a b st DP sequence)
            i j DP sequence (Z.to_nat (j - 4 - i)) i structure
  end.

Definition write_structure (sequence : list ascii) (structure : pairs)
    : res (list ascii) :=
  let dot_bracket := replicate (length sequence) "."%char in
  for_each structure
    (fun s dot_bracket =>
       do dot_bracket <- set_char dot_bracket (Z.min s.1 s.2) "(" ;
       set_char dot_bracket (Z.max s.1 s.2) ")")
    dot_bracket.

(** [initialize] for a size N >= 0, the only sizes a length gives. *)
Definition initialize (N : Z) : res table :=
  let DP := replicate (Z.to_nat N) (replicate (Z.to_nat N) 0) in
  for_range 0 4
    (fun k DP =>
       for_range 0 (N - k) (fun i DP => let j := i + k in set2 DP i j 0) DP)
    DP.

(** [nussinov] returns the structure; the table it prints on the way is
    returned next to it. *)
Definition nussinov (fuel : nat) (sequence : list ascii)
    : res (pairs * table) :=
  let N := Z.of_nat (length sequence) in
  do DP <- initialize N ;
  let structure := [] in
  do DP <- for_range 5 N
          (fun k DP =>
             for_range 0 (N - k)
               (fun i DP =>
                  let j := i + k in
                  do v <- OPT fuel i j sequence DP ;
                  set2 DP i j v)
               DP)
          DP ;
  do DP <- for_range 0 N
          (fun i DP =>
             for_range 0 i
               (fun j DP => do v <- get2 DP j i ; set2 DP i j v) DP)
          DP ;
  do structure <- traceback fuel 0 (N - 1) structure DP sequence ;
  Ok (structure, DP).

(** What [main] writes for the sequence it read. *)
Record output : Type := Output {
  out_table : table;
  out_count : nat;
  out_pairs : pairs;
  out_dot_brac : list ascii
}.

Definition main (fuel : nat) (sequence : list ascii) : res output :=
  do r <- nussinov fuel sequence ;
  let structure := r.1 in
  do dot_brac <- write_structure sequence structure ;
  Ok (Output r.2 (length structure) structure dot_brac).

Definition seq_of (s : string) : list ascii := list_ascii_of_string s.

(** ** The recurrence, in the words of the specification *)

(** Compatible symbols: the four Watson-Crick pairs and nothing else. *)
Definition watson_crick : list (ascii * ascii) :=
  [("A", "U"); ("U", "A"); ("C", "G"); ("G", "C")]%char.

Definition spec_compatible (a b : ascii) : bool :=
  bool_decide ((a, b) ∈ watson_crick).

Definition compatible_at (sequence : list ascii) (t j : Z) : bool :=
  match sequence !! Z.to_nat t, sequence !! Z.to_nat j with
  | Some a, Some b => spec_compatible a b
  | _, _ => false
  end.

(** The candidate of split point [t], when there is one. *)
Definition spec_candidate (Score : Z -> Z -> Z) (sequence : list ascii)
    (i j t : Z) : option Z :=
  if compatible_at sequence t j
  then Some (1 + (if t =? i then 0 else Score i (t - 1)) + Score (t + 1) (j - 1))
  else None.

(** The candidates of all t in [i, j-5]. *)
Definition spec_candidates (Score : Z -> Z -> Z) (sequence : list ascii)
    (i j : Z) : list Z :=
  omap (spec_candidate Score sequence i j) (seqZ i (j - 4 - i)).

(** One step of the recurrence over the scores of shorter windows. *)
Definition spec_recurrence (Score : Z -> Z -> Z) (sequence : list ascii)
    (i j : Z) : Z :=
  if j - i <=? 4 then 0
  else foldr Z.max (Score i (j - 1)) (spec_candidates Score sequence i j).

Fixpoint spec_Score_n (n : nat) (sequence : list ascii) (i j : Z) : Z :=
  match n with
  | O => 0
  | S n' => spec_recurrence (spec_Score_n n' sequence) sequence i j
  end.

Definition spec_Score (sequence : list ascii) (i j : Z) : Z :=
  spec_Score_n (Z.to_nat (j - i)) sequence i j.

(** ** Notions used by the statements *)

(** An N x N table. *)
Definition table_shape (N : Z) (DP : table) : Prop :=
  Z.of_nat (length DP) = N /\ Forall (fun row => Z.of_nat (length row) = N) DP.

(** Case analysis on the integer comparisons of a goal. *)
Ltac zbool_case :=
  first
    [ match goal with |- context [(?a <=? ?b)%Z] => destruct (Z.leb_spec a b) end
    | match goal with |- context [(?a <? ?b)%Z] => destruct (Z.ltb_spec a b) end
    | match goal with |- context [(?a =? ?b)%Z] => destruct (Z.eqb_spec a b) end ].

Ltac zbool := repeat (zbool_case; simpl); try done; try lia.

(** [vector<vector<int>> DP(N, vector<int>(N, 0))] *)
Definition zero_table (N : Z) : table :=
  replicate (Z.to_nat N) (replicate (Z.to_nat N) 0).

(** What a cell holds while the windows of width [k] are being filled from
    the left, [i] of them done. *)
Definition fill_expected (sequence : list ascii) (k i a b : Z) : Z :=
  if (a <=? b) && ((b - a <? k) || ((b - a =? k) && (a <? i)))
  then spec_Score sequence a b else 0.

(** The N x N table [DP] holds [f a b] in its cell [(a, b)]. *)
Definition cells (N : Z) (DP : table) (f : Z -> Z -> Z) : Prop :=
  table_shape N DP
  /\ forall a b, 0 <= a < N -> 0 <= b < N -> get2 DP a b = Ok (f a b).

(** What a cell holds while row [i] is being mirrored, [j] cells done. *)
Definition mirror_expected (f : Z -> Z -> Z) (i j a b : Z) : Z :=
  if (b <? a) && ((a <? i) || ((a =? i) && (b <? j))) then f b a else f a b.

(** The table handed to the traceback: every cell holds the score of its
    window, whichever way round the indices come. *)
Definition filled (sequence : list ascii) (DP : table) : Prop :=
  cells (Z.of_nat (length sequence)) DP
    (fun a b => spec_Score sequence (Z.min a b) (Z.max a b)).

(** The positions that the pairs of a structure use. *)
Definition indices (structure : pairs) : list Z :=
  flat_map (fun p => [p.1; p.2]) structure.

(** Two pairs are nested or disjoint. *)
Definition noncrossing (structure : pairs) : Prop :=
  forall p q, p ∈ structure -> q ∈ structure ->
    p.1 < q.1 -> p.2 < q.1 \/ q.2 < p.2.

(** The pairs of a window [i..j]. *)
Definition in_window (sequence : list ascii) (i j : Z) (p : Z * Z) : Prop :=
  i <= p.1 /\ p.1 + 5 <= p.2 /\ p.2 <= j
  /\ compatible_at sequence p.1 p.2 = true.

(** A valid pairing of the window [i..j]. *)
Definition window_ok (sequence : list ascii) (i j : Z) (out : pairs) : Prop :=
  Forall (in_window sequence i j) out
  /\ NoDup (indices out)
  /\ noncrossing out.

(** Occurrences of [c] in [s]. *)
Fixpoint count (c : ascii) (s : list ascii) : nat :=
  match s with
  | [] => O
  | x :: s' => ((if Ascii.eqb x c then 1 else 0) + count c s')%nat
  end.

(** No prefix holds more closing than opening brackets. *)
Definition well_nested (s : list ascii) : Prop :=
  forall m : nat, (count ")" (take m s) <= count "(" (take m s))%nat.

(** Pairs opened, and pairs closed, strictly before position [m]. *)
Fixpoint opened (m : Z) (ps : pairs) : nat :=
  match ps with
  | [] => O
  | p :: ps' => ((if (p.1 <? m)%Z then 1 else 0) + opened m ps')%nat
  end.

Fixpoint closed (m : Z) (ps : pairs) : nat :=
  match ps with
  | [] => O
  | p :: ps' => ((if (p.2 <? m)%Z then 1 else 0) + closed m ps')%nat
  end.

(** The table read as the Score function of the recurrence. *)
Definition table_Score (DP : table) (a b : Z) : Z :=
  match get2 DP a b with
  | Ok v => v
  | _ => 0
  end.

(** The test the scan of [traceback] makes at split point [t]. *)
Definition split_matches (DP : table) (sequence : list ascii) (i j t : Z)
    : bool :=
  match char_at sequence t, char_at sequence j, get2 DP i j,
        (if t - 1 <? 0 then Ok 0 else get2 DP i (t - 1)),
        get2 DP (t + 1) (j - 1) with
  | Ok ct, Ok cj, Ok dij, Ok dl, Ok dr =>
      pair_check ct cj && (dij =? dl + dr + 1)
  | _, _, _, _, _ => false
  end.

(** No transition of the traceback applies to the window [i..j]. *)
Definition no_transition (DP : table) (sequence : list ascii) (i j : Z)
    : Prop :=
  get2 DP i j <> get2 DP i (j - 1)
  /\ forall t, i <= t <= j - 5 -> split_matches DP sequence i j t = false.

(** The pairing invariant of the data model: (a) no index in two pairs,
    (b) j - i >= 5, (c) compatible symbols, (d) no crossing. *)
Definition pairing_invariant (sequence : list ascii) (structure : pairs)
    : Prop :=
  NoDup (indices structure)
  /\ (forall p, p ∈ structure ->
        0 <= p.1 /\ p.2 - p.1 >= 5
        /\ exists x y, sequence !! Z.to_nat p.1 = Some x
                   /\ sequence !! Z.to_nat p.2 = Some y
                   /\ (x, y) ∈ watson_crick)
  /\ (forall p q, p ∈ structure -> q ∈ structure ->
        p.1 < q.1 -> p.2 < q.1 \/ p.2 > q.2).

(** A table that is not a score table: [DP[0][5]] claims a pair that the
    sequence AAAAAA cannot form. *)
Definition inconsistent_table : table :=
  <[0%nat := <[5%nat := 1]> (replicate 6 0)]> (zero_table 6).

(** A table in which two split points of the window 0..6 of AACCCCU match. *)
Definition tie_table : table :=
  let z := replicate 7 0 in
  [<[6%nat := 1]> z; <[6%nat := 1]> z; z; z; z; z;
   <[1%nat := 1]> (<[0%nat := 1]> z)].

(** A 32-bit [int] value for any integer, by wrap-around. *)
Definition int_wrap (z : Z) : Z :=
  (z + 2147483648) mod 4294967296 - 2147483648.

(** The cells of a table are small enough for the sums that the scan of
    [traceback] forms from them, a cell plus 1 and two cells plus 1, to stay
    in the range of a 32-bit [int]. *)
Definition int_cells (DP : table) : Prop :=
  Forall (Forall (fun v => - 1073741824 <= v < 1073741824)) DP.

(** The test of the scan at split point [t] as the source evaluates it,
    every sum wrapped to 32 bits. *)
Definition split_matches_int (DP : table) (sequence : list ascii) (i j t : Z)
    : bool :=
  match char_at sequence t, char_at sequence j, get2 DP i j,
        get2 DP (t + 1) (j - 1) with
  | Ok ct, Ok cj, Ok dij, Ok dr =>
      if t - 1 <? 0 then pair_check ct cj && (dij =? int_wrap (dr + 1))
      else match get2 DP i (t - 1) with
           | Ok dl =>
               pair_check ct cj && (dij =? int_wrap (int_wrap (dl + dr) + 1))
           | _ => false
           end
  | _, _, _, _ => false
  end.

(** The pairs of a structure, every index moved down by [d]. *)
Definition shift_pairs (d : Z) (ps : pairs) : pairs :=
  (fun p => (p.1 - d, p.2 - d)) <$> ps.

(** The pairs of a structure as read from the other end of a sequence whose
    last position is [c]. *)
Definition reflect_pairs (c : Z) (ps : pairs) : pairs :=
  (fun p => (c - p.2, c - p.1)) <$> ps.

(** * Proofs *)

(** ** Basic facts: results, loops, tables *)

Lemma bind_Ok {A B : Type} (m : res A) (f : A -> res B) (r : B) :
  bind m f = Ok r -> exists a, m = Ok a /\ f a = Ok r.
Proof. destruct m; simpl; intros; eauto; discriminate. Qed.

(** The invariant rule of a counting loop. *)
Lemma for_loop_inv {St : Type} (I : Z -> St -> Prop) body n k (st : St) :
  I k st ->
  (forall k' st', k <= k' < k + Z.of_nat n -> I k' st' ->
     exists st'', body k' st' = Ok st'' /\ I (k' + 1) st'') ->
  exists st', for_loop n k body st = Ok st' /\ I (k + Z.of_nat n) st'.
Proof.
  revert k st. induction n as [|n IH]; intros k st HI Hstep.
  - exists st. split; [done|]. by replace (k + Z.of_nat 0) with k by lia.
  - destruct (Hstep k st) as (st1 & Hb & HI1); [lia|done|].
    destruct (IH (k + 1) st1) as (st2 & Hl & HI2); [done| |].
    + intros k' st' Hk. apply Hstep. lia.
    + exists st2. simpl. rewrite Hb. simpl. split; [done|].
      by replace (k + Z.of_nat (S n)) with (k + 1 + Z.of_nat n) by lia.
Qed.

Lemma for_range_inv {St : Type} (I : Z -> St -> Prop) body lo hi (st : St) :
  lo <= hi ->
  I lo st ->
  (forall k st', lo <= k < hi -> I k st' ->
     exists st'', body k st' = Ok st'' /\ I (k + 1) st'') ->
  exists st', for_range lo hi body st = Ok st' /\ I hi st'.
Proof.
  intros Hle HI Hstep. unfold for_range.
  destruct (for_loop_inv I body (Z.to_nat (hi - lo)) lo st HI) as (st' & H1 & H2).
  - intros k' st' Hk. apply Hstep. lia.
  - exists st'. split; [done|]. by replace (lo + Z.of_nat (Z.to_nat (hi - lo))) with hi in H2 by lia.
Qed.

Lemma for_range_empty {St : Type} body lo hi (st : St) :
  hi <= lo -> for_range lo hi body st = Ok st.
Proof. intros H. unfold for_range. by replace (Z.to_nat (hi - lo)) with O by lia. Qed.

Lemma table_row N DP i :
  table_shape N DP -> 0 <= i < N ->
  exists row, DP !! Z.to_nat i = Some row /\ Z.of_nat (length row) = N.
Proof.
  intros [Hlen Hrows] Hi.
  destruct (lookup_lt_is_Some_2 DP (Z.to_nat i)) as [row Hrow]; [lia|].
  exists row. split; [done|].
  rewrite Forall_lookup in Hrows. by apply (Hrows _ _ Hrow).
Qed.

Lemma get2_in_bounds N DP i j :
  table_shape N DP -> 0 <= i < N -> 0 <= j < N -> exists v, get2 DP i j = Ok v.
Proof.
  intros Hs Hi Hj. destruct (table_row N DP i Hs Hi) as (row & Hrow & Hlen).
  destruct (lookup_lt_is_Some_2 row (Z.to_nat j)) as [v Hv]; [lia|].
  exists v. unfold get2.
  destruct (Z.ltb_spec i 0), (Z.ltb_spec j 0); try lia. simpl.
  by rewrite Hrow, Hv.
Qed.

Lemma set2_spec N DP i j v :
  table_shape N DP -> 0 <= i < N -> 0 <= j < N ->
  exists DP', set2 DP i j v = Ok DP' /\ table_shape N DP'
    /\ get2 DP' i j = Ok v
    /\ (forall a b, (a, b) <> (i, j) -> get2 DP' a b = get2 DP a b).
Proof.
  intros Hs Hi Hj. destruct (table_row N DP i Hs Hi) as (row & Hrow & Hlen).
  exists (<[Z.to_nat i := <[Z.to_nat j := v]> row]> DP).
  assert (Hib : (Z.to_nat i < length DP)%nat) by (destruct Hs; lia).
  assert (Hjb : (Z.to_nat j < length row)%nat) by lia.
  unfold set2, get2.
  destruct (Z.ltb_spec i 0), (Z.ltb_spec j 0); try lia. simpl.
  rewrite Hrow. destruct (Nat.ltb_spec (Z.to_nat j) (length row)); [|lia].
  split; [done|]. split; [|split].
  - destruct Hs as [HN Hrows]. split; [by rewrite length_insert|].
    apply Forall_insert; [done|]. by rewrite length_insert.
  - rewrite list_lookup_insert_eq by done. by rewrite list_lookup_insert_eq.
  - intros a b Hne.
    destruct (Z.ltb_spec a 0), (Z.ltb_spec b 0); simpl; try done.
    destruct (decide (a = i)) as [->|Hai].
    + rewrite list_lookup_insert_eq by done. rewrite Hrow.
      rewrite list_lookup_insert_ne; [done|]. intros Heq.
      apply Hne. f_equal. lia.
    + rewrite list_lookup_insert_ne; [done|]. lia.
Qed.

Lemma char_at_in_bounds (s : list ascii) (t : Z) :
  0 <= t < Z.of_nat (length s) ->
  exists c, char_at s t = Ok c /\ s !! Z.to_nat t = Some c.
Proof.
  intros Ht. destruct (lookup_lt_is_Some_2 s (Z.to_nat t)) as [c Hc]; [lia|].
  exists c. unfold char_at. destruct (Z.ltb_spec t 0); [lia|]. by rewrite Hc.
Qed.

(** ** The predicate *)

Lemma pair_check_spec (a b : ascii) : pair_check a b = spec_compatible a b.
Proof.
  unfold pair_check, spec_compatible, watson_crick.
  destruct (bool_decide_reflect ((a, b) ∈ [("A", "U"); ("U", "A"); ("C", "G"); ("G", "C")]%char))
    as [Hin|Hnin].
  - rewrite !elem_of_cons, elem_of_nil in Hin.
    destruct Hin as [Heq|[Heq|[Heq|[Heq|[]]]]]; by inversion Heq.
  - apply not_true_is_false. intros Ht. apply Hnin.
    rewrite !elem_of_cons.
    rewrite !orb_true_iff, !andb_true_iff, !Ascii.eqb_eq in Ht.
    destruct Ht as [[[[-> ->]|[-> ->]]|[-> ->]]|[-> ->]]; auto.
Qed.

(** ** The recurrence as a function of the window *)

Lemma spec_recurrence_ext (S1 S2 : Z -> Z -> Z) sequence i j :
  (forall a b, i <= a <= b -> b < j -> S1 a b = S2 a b) ->
  spec_recurrence S1 sequence i j = spec_recurrence S2 sequence i j.
Proof.
  intros Hext. unfold spec_recurrence.
  destruct (Z.leb_spec (j - i) 4); [done|].
  rewrite (Hext i (j - 1)) by lia. f_equal.
  unfold spec_candidates. apply list_omap_ext. apply Forall2_same_length_lookup_2; [done|].
  intros n t t' Ht Ht'. assert (t' = t) as -> by congruence.
  apply lookup_seqZ in Ht as [-> Hn]. unfold spec_candidate.
  rewrite (Hext (i + Z.of_nat n + 1) (j - 1)) by lia.
  destruct (Z.eqb_spec (i + Z.of_nat n) i); [done|].
  by rewrite (Hext i (i + Z.of_nat n - 1)) by lia.
Qed.

Lemma spec_Score_n_irrel sequence n m i j :
  (Z.to_nat (j - i) <= n)%nat -> (Z.to_nat (j - i) <= m)%nat ->
  spec_Score_n n sequence i j = spec_Score_n m sequence i j.
Proof.
  revert m i j. induction n as [|n IH]; intros [|m] i j Hn Hm; simpl; try done.
  - unfold spec_recurrence. destruct (Z.leb_spec (j - i) 4); [done|lia].
  - unfold spec_recurrence. destruct (Z.leb_spec (j - i) 4); [done|lia].
  - apply spec_recurrence_ext. intros a b Ha Hb. apply IH; lia.
Qed.

Lemma spec_Score_unfold sequence i j :
  spec_Score sequence i j = spec_recurrence (spec_Score sequence) sequence i j.
Proof.
  unfold spec_Score at 1.
  rewrite (spec_Score_n_irrel sequence _ (S (Z.to_nat (j - i)))) by lia.
  simpl. apply spec_recurrence_ext. intros a b Ha Hb.
  unfold spec_Score. apply spec_Score_n_irrel; lia.
Qed.

Lemma spec_Score_short sequence i j : j - i <= 4 -> spec_Score sequence i j = 0.
Proof.
  intros H. rewrite spec_Score_unfold. unfold spec_recurrence.
  by destruct (Z.leb_spec (j - i) 4); [|lia].
Qed.

Lemma foldr_max_ge (u : Z) (l : list Z) : u <= foldr Z.max u l.
Proof. induction l; simpl; lia. Qed.

Lemma foldr_max_le (B u : Z) (l : list Z) :
  u <= B -> Forall (fun x => x <= B) l -> foldr Z.max u l <= B.
Proof. intros Hu Hl. induction Hl; simpl; lia. Qed.

(** The maximum is the start value or one of the list's elements. *)
Lemma foldr_max_attained (u : Z) (l : list Z) :
  foldr Z.max u l = u \/ foldr Z.max u l ∈ l.
Proof.
  induction l as [|x l IH]; simpl; [by left|].
  destruct (Z.max_spec x (foldr Z.max u l)) as [[_ ->]|[_ ->]].
  - destruct IH; [by left|right; by apply elem_of_cons; right].
  - right. by apply elem_of_cons; left.
Qed.

Lemma spec_Score_nonneg sequence i j : 0 <= spec_Score sequence i j.
Proof.
  unfold spec_Score. generalize (Z.to_nat (j - i)) as n. intros n. revert i j.
  induction n as [|n IH]; intros i j; simpl; [done|].
  unfold spec_recurrence. destruct (Z.leb_spec (j - i) 4); [done|].
  etrans; [apply (IH i (j - 1))|apply foldr_max_ge].
Qed.

Lemma spec_candidates_le (Score : Z -> Z -> Z) sequence i j :
  (forall a b, i <= a -> b < j -> 0 <= Score a b <= Z.max 0 (b - a)) ->
  Forall (fun x => x <= Z.max 0 (j - i)) (spec_candidates Score sequence i j).
Proof.
  intros HS. apply Forall_forall. intros x Hx.
  apply list_elem_of_omap in Hx as (t & Ht & Hc).
  apply elem_of_seqZ in Ht. unfold spec_candidate in Hc.
  destruct (compatible_at sequence t j); [|done]. inversion Hc; subst x.
  pose proof (HS (t + 1) (j - 1)). pose proof (HS i (t - 1)).
  destruct (Z.eqb_spec t i); lia.
Qed.

(** Scores are pair counts of a window: between 0 and the window's width,
    so they stay inside the range of [int]. *)
Lemma spec_Score_range sequence i j :
  0 <= spec_Score sequence i j <= Z.max 0 (j - i).
Proof.
  unfold spec_Score. generalize (Z.to_nat (j - i)) as n. intros n. revert i j.
  induction n as [|n IH]; intros i j; simpl; [lia|].
  unfold spec_recurrence. destruct (Z.leb_spec (j - i) 4); [lia|]. split.
  - etrans; [apply (IH i (j - 1))|apply foldr_max_ge].
  - apply foldr_max_le.
    + pose proof (IH i (j - 1)). lia.
    + apply spec_candidates_le. intros a b _ _. apply IH.
Qed.

(** ** OPT computes the recurrence *)

Lemma compatible_at_lookup sequence t j ct cj :
  sequence !! Z.to_nat t = Some ct -> sequence !! Z.to_nat j = Some cj ->
  compatible_at sequence t j = pair_check ct cj.
Proof. intros Ht Hj. unfold compatible_at. by rewrite Ht, Hj, pair_check_spec. Qed.

Lemma OPT_loop_spec (self : Z -> Z -> res Z) (Score : Z -> Z -> Z)
    sequence i j n k acc :
  0 <= i <= k -> k + Z.of_nat n <= j -> j < Z.of_nat (length sequence) ->
  (forall a b, i <= a -> b < j -> self a b = Ok (Score a b)) ->
  Score i (i - 1) = 0 ->
  for_loop n k (OPT_body self i j sequence) acc
  = Ok (acc ++ omap (spec_candidate Score sequence i j) (seqZ k (Z.of_nat n))).
Proof.
  intros Hik Hkn Hj Hself H0. revert k acc Hik Hkn.
  induction n as [|n IH]; intros k acc Hik Hkn.
  - simpl. by rewrite app_nil_r.
  - rewrite seqZ_cons by lia.
    replace (Z.pred (Z.of_nat (S n))) with (Z.of_nat n) by lia.
    simpl. unfold OPT_body at 1.
    destruct (char_at_in_bounds sequence k) as (ck & -> & Hck); [lia|].
    destruct (char_at_in_bounds sequence j) as (cj & -> & Hcj); [lia|].
    simpl. unfold spec_candidate at 1.
    rewrite (compatible_at_lookup _ _ _ _ _ Hck Hcj).
    destruct (pair_check ck cj).
    + rewrite !Hself by lia. simpl. rewrite IH by lia.
      rewrite <- app_assoc. simpl. do 4 f_equal.
      destruct (Z.eqb_spec k i); [subst k; rewrite H0; lia|lia].
    + simpl. by rewrite IH by lia.
Qed.

Lemma max_element_foldr (u x : Z) (l : list Z) :
  Z.max u (fold_left Z.max l x) = foldr Z.max u (x :: l).
Proof.
  revert x. induction l as [|y l IH]; intros x; simpl; [lia|].
  rewrite IH. simpl. lia.
Qed.

Lemma OPT_correct sequence DP fuel i j :
  0 <= i -> j < Z.of_nat (length sequence) ->
  (Z.to_nat (j - i) < fuel)%nat ->
  OPT fuel i j sequence DP = Ok (spec_Score sequence i j).
Proof.
  revert i j. induction fuel as [|fuel IH]; intros i j Hi Hj Hfuel; [lia|].
  simpl. rewrite spec_Score_unfold. unfold spec_recurrence.
  destruct (Z.geb_spec i (j - 4)), (Z.leb_spec (j - i) 4); try lia; [done|].
  rewrite IH by lia. simpl. unfold for_range.
  rewrite (OPT_loop_spec _ (spec_Score sequence)); try lia.
  - simpl. replace (Z.of_nat (Z.to_nat (j - 4 - i))) with (j - 4 - i) by lia.
    fold (spec_candidates (spec_Score sequence) sequence i j).
    pose proof (spec_Score_nonneg sequence i (j - 1)) as Hnn.
    destruct (spec_candidates (spec_Score sequence) sequence i j) as [|x l].
    + simpl. f_equal. lia.
    + unfold max_element. cbn [bind]. f_equal. apply max_element_foldr.
  - intros a b Ha Hb. apply IH; lia.
  - apply spec_Score_short. lia.
Qed.

(** ** The table that nussinov builds *)

Lemma zero_table_shape N : 0 <= N -> table_shape N (zero_table N).
Proof.
  intros HN. split.
  - unfold zero_table. rewrite length_replicate. lia.
  - apply Forall_replicate. rewrite length_replicate. lia.
Qed.

Lemma get2_zero_table N a b :
  0 <= a < N -> 0 <= b < N -> get2 (zero_table N) a b = Ok 0.
Proof.
  intros Ha Hb. unfold get2, zero_table. zbool.
  rewrite lookup_replicate_2 by lia. by rewrite lookup_replicate_2 by lia.
Qed.

Lemma set2_zero_table N a b :
  0 <= a < N -> 0 <= b < N -> set2 (zero_table N) a b 0 = Ok (zero_table N).
Proof.
  intros Ha Hb. unfold set2, zero_table. zbool.
  rewrite lookup_replicate_2 by lia. rewrite length_replicate.
  destruct (Nat.ltb_spec (Z.to_nat b) (Z.to_nat N)); [|lia].
  f_equal. apply list_insert_id. rewrite lookup_replicate_2 by lia.
  f_equal. symmetry. apply list_insert_id. by rewrite lookup_replicate_2 by lia.
Qed.

Lemma initialize_spec N : 0 <= N -> initialize N = Ok (zero_table N).
Proof.
  intros HN.
  destruct (for_range_inv (fun _ DP => DP = zero_table N)
              (fun k DP => for_range 0 (N - k)
                 (fun i DP => let j := i + k in set2 DP i j 0) DP)
              0 4 (zero_table N)) as (DP & HDP & ->); [lia|done| |exact HDP].
  intros k DP Hk ->. destruct (Z.le_gt_cases (N - k) 0) as [Hle|Hgt].
  - exists (zero_table N). split; [|done]. by apply for_range_empty.
  - apply (for_range_inv (fun _ DP => DP = zero_table N)); [lia|done|].
    intros i DP Hi ->. exists (zero_table N). split; [|done].
    apply set2_zero_table; lia.
Qed.

Lemma fill_spec sequence fuel :
  let N := Z.of_nat (length sequence) in
  (length sequence <= fuel)%nat ->
  exists DP,
    for_range 5 N
      (fun k DP =>
         for_range 0 (N - k)
           (fun i DP =>
              let j := i + k in
              do v <- OPT fuel i j sequence DP ;
              set2 DP i j v)
           DP)
      (zero_table N) = Ok DP
    /\ cells N DP (fun a b => if a <=? b then spec_Score sequence a b else 0).
Proof.
  intros N Hfuel.
  assert (Hinit : cells N (zero_table N) (fill_expected sequence 5 0)).
  { split; [apply zero_table_shape; lia|]. intros a b Ha Hb.
    rewrite get2_zero_table by done. f_equal. unfold fill_expected. zbool.
    symmetry. apply spec_Score_short. lia. }
  destruct (Z.le_gt_cases N 5) as [Hsmall|Hbig].
  { exists (zero_table N). split; [by apply for_range_empty|].
    destruct Hinit as [Hs Hc]. split; [done|]. intros a b Ha Hb.
    rewrite Hc by done. f_equal. unfold fill_expected. zbool. }
  destruct (for_range_inv
              (fun k DP => cells N DP (fill_expected sequence k 0))
              (fun k DP =>
                 for_range 0 (N - k)
                   (fun i DP =>
                      let j := i + k in
                      do v <- OPT fuel i j sequence DP ;
                      set2 DP i j v)
                   DP)
              5 N (zero_table N)) as (DP & HDP & Hs & Hc); [lia|done| |].
  - intros k DP Hk HI.
    destruct (for_range_inv
                (fun i DP => cells N DP (fill_expected sequence k i))
                (fun i DP =>
                   let j := i + k in
                   do v <- OPT fuel i j sequence DP ;
                   set2 DP i j v)
                0 (N - k) DP) as (DP' & HDP' & Hs' & Hc'); [lia|done| |].
    + intros i DPi Hi [Hsi Hci]. simpl.
      rewrite OPT_correct by (unfold N in *; lia). simpl.
      destruct (set2_spec N DPi i (i + k) (spec_Score sequence i (i + k)) Hsi)
        as (DPn & -> & Hsn & Heq & Hne); [lia|lia|].
      exists DPn. split; [done|]. split; [done|]. intros a b Ha Hb.
      destruct (decide ((a, b) = (i, i + k))) as [Hab|Hab].
      * inversion Hab; subst a b. rewrite Heq. f_equal.
        unfold fill_expected. zbool.
      * rewrite (Hne _ _ Hab), Hci by done. f_equal.
        unfold fill_expected. zbool.
        all: try (exfalso; apply Hab; f_equal; lia).
    + exists DP'. split; [done|]. split; [done|]. intros a b Ha Hb.
      rewrite Hc' by done. f_equal. unfold fill_expected. zbool.
  - exists DP. split; [done|]. split; [done|]. intros a b Ha Hb.
    rewrite Hc by done. f_equal. unfold fill_expected. zbool.
Qed.

Lemma mirror_spec N DP f :
  0 <= N -> cells N DP f ->
  exists DP',
    for_range 0 N
      (fun i DP =>
         for_range 0 i
           (fun j DP => do v <- get2 DP j i ; set2 DP i j v) DP)
      DP = Ok DP'
    /\ cells N DP' (fun a b => if b <? a then f b a else f a b).
Proof.
  intros HN Hcells.
  destruct (for_range_inv
              (fun i DP => cells N DP (mirror_expected f i 0))
              (fun i DP =>
                 for_range 0 i
                   (fun j DP => do v <- get2 DP j i ; set2 DP i j v) DP)
              0 N DP) as (DP' & HDP' & Hs & Hc); [lia| | |].
  - destruct Hcells as [Hs Hc]. split; [done|]. intros a b Ha Hb.
    rewrite Hc by done. f_equal. unfold mirror_expected. zbool.
  - intros i DPi Hi HI.
    destruct (for_range_inv
                (fun j DP => cells N DP (mirror_expected f i j))
                (fun j DP => do v <- get2 DP j i ; set2 DP i j v)
                0 i DPi) as (DPo & HDPo & Hso & Hco); [lia|done| |].
    + intros j DPj Hj [Hsj Hcj]. rewrite Hcj by lia. simpl.
      destruct (set2_spec N DPj i j (mirror_expected f i j j i) Hsj)
        as (DPn & -> & Hsn & Heq & Hne); [lia|lia|].
      exists DPn. split; [done|]. split; [done|]. intros a b Ha Hb.
      destruct (decide ((a, b) = (i, j))) as [Hab|Hab].
      * inversion Hab; subst a b. rewrite Heq. f_equal.
        unfold mirror_expected. zbool.
      * rewrite (Hne _ _ Hab), Hcj by done. f_equal.
        unfold mirror_expected. zbool.
        all: try (exfalso; apply Hab; f_equal; lia).
    + exists DPo. split; [done|]. split; [done|]. intros a b Ha Hb.
      rewrite Hco by done. f_equal. unfold mirror_expected. zbool.
  - exists DP'. split; [done|]. split; [done|]. intros a b Ha Hb.
    rewrite Hc by done. f_equal. unfold mirror_expected. zbool.
Qed.

Lemma nussinov_table fuel sequence :
  (length sequence <= fuel)%nat ->
  exists DP,
    filled sequence DP
    /\ nussinov fuel sequence
       = (do structure <- traceback fuel 0 (Z.of_nat (length sequence) - 1)
                            [] DP sequence ;
          Ok (structure, DP)).
Proof.
  intros Hfuel. unfold nussinov. cbv zeta.
  rewrite initialize_spec by lia. cbn [bind].
  destruct (fill_spec sequence fuel Hfuel) as (DP1 & H1 & Hc1).
  cbv zeta in H1. rewrite H1. cbn [bind].
  destruct (mirror_spec (Z.of_nat (length sequence)) DP1 _ ltac:(lia) Hc1)
    as (DP2 & H2 & Hs2 & Hc2).
  rewrite H2. cbn [bind]. exists DP2. split; [|done].
  split; [done|]. intros a b Ha Hb. rewrite Hc2 by done. f_equal.
  zbool; f_equal; lia.
Qed.

Lemma filled_upper sequence DP a b :
  filled sequence DP -> 0 <= a <= b -> b < Z.of_nat (length sequence) ->
  get2 DP a b = Ok (spec_Score sequence a b).
Proof.
  intros [_ Hc] Ha Hb. rewrite Hc by lia. do 2 f_equal; lia.
Qed.

(** Reading the left sub-window of a split point [k >= i]: for [k = i] the
    cell read is [DP[i][i-1]], below the diagonal. *)
Lemma filled_left sequence DP i k :
  filled sequence DP -> 0 <= i <= k -> 0 <= k - 1 ->
  k < Z.of_nat (length sequence) ->
  get2 DP i (k - 1) = Ok (spec_Score sequence i (k - 1)).
Proof.
  intros [_ Hc] Hi Hk HN. rewrite Hc by lia. f_equal.
  destruct (decide (k = i)) as [->|Hne].
  - rewrite !spec_Score_short; lia.
  - f_equal; lia.
Qed.

(** ** The pairing invariant *)

Lemma window_ok_nil sequence i j : window_ok sequence i j [].
Proof.
  split; [constructor|]. split; [constructor|].
  intros p q Hp. by apply elem_of_nil in Hp.
Qed.

Lemma window_ok_weaken sequence i j i' j' out :
  window_ok sequence i j out -> i' <= i -> j <= j' ->
  window_ok sequence i' j' out.
Proof.
  intros (Hw & Hnd & Hnc) Hi Hj. split; [|done].
  eapply Forall_impl; [exact Hw|]. unfold in_window.
  intros p (?&?&?&?). repeat split; try done; lia.
Qed.

Lemma indices_in_window sequence i j out x :
  Forall (in_window sequence i j) out -> x ∈ indices out -> i <= x <= j.
Proof.
  intros Hw Hx. unfold indices in Hx. apply list_elem_of_In in Hx.
  apply in_flat_map in Hx as (p & Hp & Hxp).
  apply list_elem_of_In in Hp. rewrite Forall_forall in Hw.
  destruct (Hw p Hp) as (H1 & H2 & H3 & _).
  destruct Hxp as [<-|[<-|[]]]; lia.
Qed.

Lemma indices_app (o1 o2 : pairs) : indices (o1 ++ o2) = indices o1 ++ indices o2.
Proof. unfold indices. apply flat_map_app. Qed.

Lemma window_ok_pair sequence i j k o1 o2 :
  i <= k -> k + 5 <= j -> compatible_at sequence k j = true ->
  window_ok sequence i (k - 1) o1 ->
  window_ok sequence (k + 1) (j - 1) o2 ->
  window_ok sequence i j ((k, j) :: o1 ++ o2).
Proof.
  intros Hik Hkj Hc (Hw1 & Hnd1 & Hnc1) (Hw2 & Hnd2 & Hnc2).
  pose proof (fun x => indices_in_window _ _ _ _ x Hw1) as Hb1.
  pose proof (fun x => indices_in_window _ _ _ _ x Hw2) as Hb2.
  rewrite Forall_forall in Hw1, Hw2.
  split; [|split].
  - apply Forall_cons. split; [by repeat split; simpl; try lia|].
    apply Forall_app. split; apply Forall_forall; intros p Hp.
    + destruct (Hw1 p Hp) as (?&?&?&?). repeat split; try done; lia.
    + destruct (Hw2 p Hp) as (?&?&?&?). repeat split; try done; lia.
  - change (NoDup (k :: j :: indices (o1 ++ o2))). rewrite indices_app.
    apply NoDup_cons. split.
    { rewrite elem_of_cons, elem_of_app.
      intros [?|[Hx|Hx]]; [lia|apply Hb1 in Hx; lia|apply Hb2 in Hx; lia]. }
    apply NoDup_cons. split.
    { rewrite elem_of_app.
      intros [Hx|Hx]; [apply Hb1 in Hx; lia|apply Hb2 in Hx; lia]. }
    apply NoDup_app. split; [done|]. split; [|done].
    intros x Hx1 Hx2. apply Hb1 in Hx1. apply Hb2 in Hx2. lia.
  - intros p q Hp Hq Hlt.
    rewrite elem_of_cons, elem_of_app in Hp, Hq.
    destruct Hp as [->|[Hp|Hp]], Hq as [->|[Hq|Hq]]; simpl in *;
      try (pose proof (Hw1 _ Hp) as (?&?&?&?));
      try (pose proof (Hw2 _ Hp) as (?&?&?&?));
      try (pose proof (Hw1 _ Hq) as (?&?&?&?));
      try (pose proof (Hw2 _ Hq) as (?&?&?&?));
      try lia.
    + by apply Hnc1.
    + by apply Hnc2.
Qed.

(** ** The traceback on any table of the right shape *)

Section Traceback_any_table.
Variable sequence : list ascii.
Variable DP : table.
Hypothesis Hshape : table_shape (Z.of_nat (length sequence)) DP.

Lemma traceback_scan_window self i j n k st :
  0 <= i <= k -> j < Z.of_nat (length sequence) ->
  k + Z.of_nat n <= Z.max k (j - 4) ->
  (forall a b st', i <= a -> b < j ->
     exists out, self a b st' = Ok (st' ++ out) /\ window_ok sequence a b out) ->
  exists out,
    traceback_scan self i j DP sequence n k st = Ok (st ++ out)
    /\ window_ok sequence i j out.
Proof.
  intros Hik Hj Hkn Hself. revert k st Hik Hkn.
  induction n as [|n IH]; intros k st Hik Hkn.
  { exists []. simpl. rewrite app_nil_r. split; [done|apply window_ok_nil]. }
  simpl.
  destruct (char_at_in_bounds sequence k) as (ck & -> & Hck); [lia|].
  destruct (char_at_in_bounds sequence j) as (cj & -> & Hcj); [lia|].
  cbn [bind]. pose proof (compatible_at_lookup _ _ _ _ _ Hck Hcj) as Hcomp.
  destruct (pair_check ck cj); [|apply IH; lia].
  destruct (get2_in_bounds _ DP i j Hshape) as (dij & ->); [lia|lia|].
  destruct (get2_in_bounds _ DP (k + 1) (j - 1) Hshape) as (dr & Hdr); [lia|lia|].
  destruct (Z.ltb_spec (k - 1) 0).
  - cbn [bind]. rewrite Hdr. cbn [bind].
    destruct (dij =? dr + 1); [|apply IH; lia].
    destruct (Hself (k + 1) (j - 1) (st ++ [(k, j)])) as (o2 & -> & Hw2); [lia|lia|].
    exists ((k, j) :: [] ++ o2). split; [by rewrite <- app_assoc|].
    apply window_ok_pair; try done; try lia. apply window_ok_nil.
  - destruct (get2_in_bounds _ DP i (k - 1) Hshape) as (dl & ->); [lia|lia|].
    cbn [bind]. rewrite Hdr. cbn [bind].
    destruct (dij =? dl + dr + 1); [|apply IH; lia].
    destruct (Hself i (k - 1) (st ++ [(k, j)])) as (o1 & -> & Hw1); [lia|lia|].
    cbn [bind].
    destruct (Hself (k + 1) (j - 1) ((st ++ [(k, j)]) ++ o1))
      as (o2 & -> & Hw2); [lia|lia|].
    exists ((k, j) :: o1 ++ o2). split; [by rewrite <- !app_assoc|].
    apply window_ok_pair; try done; lia.
Qed.

(** The traceback returns, appends to the structure it was given, and
    what it appends is a valid pairing of its window. *)
Lemma traceback_window fuel i j st :
  0 <= i -> j < Z.of_nat (length sequence) ->
  (Z.to_nat (j - i) < fuel)%nat ->
  exists out,
    traceback fuel i j st DP sequence = Ok (st ++ out)
    /\ window_ok sequence i j out.
Proof.
  revert i j st. induction fuel as [|fuel IH]; intros i j st Hi Hj Hf; [lia|].
  simpl. destruct (Z.leb_spec j i).
  { exists []. rewrite app_nil_r. split; [done|apply window_ok_nil]. }
  destruct (get2_in_bounds _ DP i j Hshape) as (dij & ->); [lia|lia|].
  destruct (get2_in_bounds _ DP i (j - 1) Hshape) as (dij1 & ->); [lia|lia|].
  cbn [bind]. destruct (dij =? dij1).
  - destruct (IH i (j - 1) st) as (out & -> & Hw); [lia|lia|lia|].
    exists out. split; [done|]. eapply window_ok_weaken; [exact Hw|lia|lia].
  - apply traceback_scan_window; [lia|lia|lia|].
    intros a b st' Ha Hb. apply IH; lia.
Qed.

Lemma traceback_scan_mono (self self' : Z -> Z -> pairs -> res pairs)
    i j n k st r :
  (forall a b st' r', self a b st' = Ok r' -> self' a b st' = Ok r') ->
  traceback_scan self i j DP sequence n k st = Ok r ->
  traceback_scan self' i j DP sequence n k st = Ok r.
Proof.
  intros Hself. revert k st. induction n as [|n IH]; intros k st; [done|].
  simpl. destruct (char_at sequence k) as [ck| |]; try done.
  destruct (char_at sequence j) as [cj| |]; try done. cbn [bind].
  destruct (pair_check ck cj); [|apply IH].
  destruct (k - 1 <? 0).
  - destruct (get2 DP i j) as [dij| |]; try done.
    destruct (get2 DP (k + 1) (j - 1)) as [dr| |]; try done. cbn [bind].
    destruct (dij =? dr + 1); [apply Hself|apply IH].
  - destruct (get2 DP i j) as [dij| |]; try done.
    destruct (get2 DP i (k - 1)) as [dl| |]; try done.
    destruct (get2 DP (k + 1) (j - 1)) as [dr| |]; try done. cbn [bind].
    destruct (dij =? dl + dr + 1); [|apply IH].
    intros H. apply bind_Ok in H as (r1 & H1 & H2).
    rewrite (Hself _ _ _ _ H1). cbn [bind]. by apply Hself.
Qed.

(** More fuel never changes a result. *)
Lemma traceback_fuel_mono fuel fuel' i j st r :
  (fuel <= fuel')%nat ->
  traceback fuel i j st DP sequence = Ok r ->
  traceback fuel' i j st DP sequence = Ok r.
Proof.
  revert fuel' i j st r. induction fuel as [|fuel IH];
    intros [|fuel'] i j st r Hle; try done; [lia|].
  simpl. destruct (j <=? i); [done|].
  destruct (get2 DP i j) as [dij| |]; try done.
  destruct (get2 DP i (j - 1)) as [dij1| |]; try done. cbn [bind].
  destruct (dij =? dij1); [apply IH; lia|].
  apply traceback_scan_mono. intros a b st' r'. apply IH. lia.
Qed.
End Traceback_any_table.

(** ** The traceback on the filled table *)

Section Traceback_filled.
Variable sequence : list ascii.
Variable DP : table.
Hypothesis Hfilled : filled sequence DP.

Lemma traceback_scan_count self i j n k st r :
  0 <= i <= k -> j < Z.of_nat (length sequence) ->
  k + Z.of_nat n <= Z.max k (j - 4) ->
  (forall a b st' r', i <= a -> b < j -> self a b st' = Ok r' ->
     Z.of_nat (length r') = Z.of_nat (length st') + spec_Score sequence a b) ->
  (exists t, k <= t < k + Z.of_nat n
     /\ spec_candidate (spec_Score sequence) sequence i j t
        = Some (spec_Score sequence i j)) ->
  traceback_scan self i j DP sequence n k st = Ok r ->
  Z.of_nat (length r) = Z.of_nat (length st) + spec_Score sequence i j.
Proof.
  intros Hik Hj Hkn Hself. revert k st Hik Hkn.
  induction n as [|n IH]; intros k st Hik Hkn (t & Ht & Hcand); [lia|].
  simpl.
  destruct (char_at_in_bounds sequence k) as (ck & -> & Hck); [lia|].
  destruct (char_at_in_bounds sequence j) as (cj & -> & Hcj); [lia|].
  cbn [bind]. pose proof (compatible_at_lookup _ _ _ _ _ Hck Hcj) as Hcomp.
  assert (Hnext : t <> k ->
    exists t', k + 1 <= t' < k + 1 + Z.of_nat n
      /\ spec_candidate (spec_Score sequence) sequence i j t'
         = Some (spec_Score sequence i j)).
  { intros Hne. exists t. split; [lia|done]. }
  assert (Hat : t = k -> compatible_at sequence k j = true
    /\ spec_Score sequence i j
       = 1 + spec_Score sequence i (k - 1) + spec_Score sequence (k + 1) (j - 1)).
  { intros ->. unfold spec_candidate in Hcand.
    destruct (compatible_at sequence k j); [|done]. split; [done|].
    injection Hcand as Heq. rewrite <- Heq.
    destruct (Z.eqb_spec k i) as [->|]; [|done].
    rewrite (spec_Score_short sequence i (i - 1)); lia. }
  destruct (pair_check ck cj).
  2:{ apply IH; [lia|lia|]. apply Hnext. intros Htk.
      destruct (Hat Htk) as [Hc _]. congruence. }
  rewrite (filled_upper sequence DP i j Hfilled) by lia.
  rewrite (filled_upper sequence DP (k + 1) (j - 1) Hfilled) by lia.
  destruct (Z.ltb_spec (k - 1) 0) as [Hk0|Hk0].
  - cbn [bind]. assert (k = i) as -> by lia. assert (i = 0) as Hi0 by lia.
    destruct (Z.eqb_spec (spec_Score sequence i j)
                (spec_Score sequence (i + 1) (j - 1) + 1)) as [Heq|Hne].
    + intros Hr. apply Hself in Hr; [|lia|lia].
      rewrite length_app in Hr. simpl in Hr. lia.
    + apply IH; [lia|lia|]. apply Hnext. intros Htk.
      destruct (Hat Htk) as [_ Hs].
      rewrite (spec_Score_short sequence i (i - 1)) in Hs; lia.
  - rewrite (filled_left sequence DP i k Hfilled) by lia. cbn [bind].
    destruct (Z.eqb_spec (spec_Score sequence i j)
                (spec_Score sequence i (k - 1)
                 + spec_Score sequence (k + 1) (j - 1) + 1)) as [Heq|Hne].
    + intros Hr. apply bind_Ok in Hr as (r1 & H1 & H2).
      apply Hself in H1; [|lia|lia]. apply Hself in H2; [|lia|lia].
      rewrite length_app in H1. simpl in H1. lia.
    + apply IH; [lia|lia|]. apply Hnext. intros Htk.
      destruct (Hat Htk) as [_ Hs]. lia.
Qed.

(** When the skip equality fails, some split point attains the score. *)
Lemma split_point_exists i j :
  spec_Score sequence i j <> spec_Score sequence i (j - 1) ->
  exists t, i <= t < i + Z.of_nat (Z.to_nat (j - 4 - i))
    /\ spec_candidate (spec_Score sequence) sequence i j t
       = Some (spec_Score sequence i j).
Proof.
  intros Hne. rewrite (spec_Score_unfold sequence i j) in Hne |- *.
  unfold spec_recurrence in *.
  destruct (Z.leb_spec (j - i) 4).
  { rewrite spec_Score_short in Hne; [done|lia]. }
  destruct (foldr_max_attained (spec_Score sequence i (j - 1))
              (spec_candidates (spec_Score sequence) sequence i j))
    as [Heq|Hin]; [done|].
  apply list_elem_of_omap in Hin as (t & Ht & Hc).
  apply elem_of_seqZ in Ht. exists t. split; [lia|done].
Qed.

(** The traceback emits as many pairs as the score of its window. *)
Lemma traceback_count fuel i j st r :
  0 <= i -> j < Z.of_nat (length sequence) ->
  traceback fuel i j st DP sequence = Ok r ->
  Z.of_nat (length r) = Z.of_nat (length st) + spec_Score sequence i j.
Proof.
  revert i j st r. induction fuel as [|fuel IH]; intros i j st r Hi Hj; [done|].
  simpl. destruct (Z.leb_spec j i).
  { intros [= <-]. rewrite spec_Score_short; lia. }
  rewrite (filled_upper sequence DP i j Hfilled) by lia.
  rewrite (filled_upper sequence DP i (j - 1) Hfilled) by lia. cbn [bind].
  destruct (Z.eqb_spec (spec_Score sequence i j) (spec_Score sequence i (j - 1)))
    as [Heq|Hne].
  - intros Hr. apply IH in Hr; lia.
  - apply traceback_scan_count; [lia|lia|lia| |by apply split_point_exists].
    intros a b st' r' Ha Hb. apply IH; lia.
Qed.
End Traceback_filled.

(** ** The renderer *)

Lemma count_insert c (s : list ascii) (i : nat) x y :
  s !! i = Some y ->
  (count c (<[i:=x]> s) + (if Ascii.eqb y c then 1 else 0)
   = count c s + (if Ascii.eqb x c then 1 else 0))%nat.
Proof.
  revert i. induction s as [|z s IH]; intros [|i] Hi; try done; simpl in *.
  - injection Hi as ->. lia.
  - specialize (IH i Hi). lia.
Qed.

Lemma count_take_insert c (s : list ascii) (i m : nat) x y :
  s !! i = Some y ->
  (count c (take m (<[i:=x]> s))
     + (if (i <? m)%nat && Ascii.eqb y c then 1 else 0)
   = count c (take m s)
     + (if (i <? m)%nat && Ascii.eqb x c then 1 else 0))%nat.
Proof.
  intros Hi. destruct (Nat.ltb_spec i m); simpl.
  - rewrite take_insert_lt by done. apply count_insert.
    by rewrite lookup_take_lt.
  - rewrite take_insert_ge by lia. done.
Qed.

Lemma count_replicate_dot c (n : nat) :
  Ascii.eqb "." c = false -> count c (replicate n "."%char) = O.
Proof.
  intros Hc. induction n as [|n IH]; cbn [count replicate]; [done|].
  by rewrite Hc, IH.
Qed.

Lemma set_char_in_bounds (s : list ascii) (t : Z) (c : ascii) :
  0 <= t < Z.of_nat (length s) ->
  set_char s t c = Ok (<[Z.to_nat t := c]> s).
Proof.
  intros Ht. unfold set_char. destruct (Z.ltb_spec t 0); [lia|].
  destruct (Nat.ltb_spec (Z.to_nat t) (length s)); [done|lia].
Qed.

Lemma closed_le_opened m (ps : pairs) :
  Forall (fun p => p.1 < p.2) ps -> (closed m ps <= opened m ps)%nat.
Proof.
  intros H. induction H as [|p ps Hp _ IH]; simpl; [done|].
  destruct (Z.ltb_spec p.1 m), (Z.ltb_spec p.2 m); lia.
Qed.

Lemma opened_all m (ps : pairs) :
  Forall (fun p => p.1 < m) ps -> opened m ps = length ps.
Proof.
  intros H. induction H as [|p ps Hp _ IH]; simpl; [done|].
  destruct (Z.ltb_spec p.1 m); lia.
Qed.

Lemma closed_all m (ps : pairs) :
  Forall (fun p => p.2 < m) ps -> closed m ps = length ps.
Proof.
  intros H. induction H as [|p ps Hp _ IH]; simpl; [done|].
  destruct (Z.ltb_spec p.2 m); lia.
Qed.

(** The loop of [write_structure], on a buffer that still holds a dot at
    every index of the pairs to come. *)
Lemma write_loop_spec (ps : pairs) (d : list ascii) :
  Forall (fun p => 0 <= p.1 /\ p.1 < p.2 /\ p.2 < Z.of_nat (length d)) ps ->
  NoDup (indices ps) ->
  (forall x, x ∈ indices ps -> d !! Z.to_nat x = Some "."%char) ->
  exists d',
    for_each ps
      (fun s dot_bracket =>
         do dot_bracket <- set_char dot_bracket (Z.min s.1 s.2) "(" ;
         set_char dot_bracket (Z.max s.1 s.2) ")") d = Ok d'
    /\ length d' = length d
    /\ (forall p, p ∈ ps ->
          d' !! Z.to_nat p.1 = Some "("%char /\ d' !! Z.to_nat p.2 = Some ")"%char)
    /\ (forall x : nat, Z.of_nat x ∉ indices ps -> d' !! x = d !! x)
    /\ (forall m : nat,
          count "(" (take m d') = (count "(" (take m d) + opened (Z.of_nat m) ps)%nat
          /\ count ")" (take m d') = (count ")" (take m d) + closed (Z.of_nat m) ps)%nat).
Proof.
  revert d. induction ps as [|p ps IH]; intros d Hb Hnd Hdot.
  { exists d. simpl. split; [done|]. split; [done|]. split; [|split; [done|]].
    - intros p Hp. by apply elem_of_nil in Hp.
    - intros m. lia. }
  apply Forall_cons in Hb as [(Hp1 & Hp12 & Hp2) Hb].
  change (indices (p :: ps)) with (p.1 :: p.2 :: indices ps) in *.
  apply NoDup_cons in Hnd as [Hn1 Hnd]. apply NoDup_cons in Hnd as [Hn2 Hnd].
  rewrite elem_of_cons in Hn1.
  set (d0 := <[Z.to_nat p.1 := "("%char]> d).
  set (d1 := <[Z.to_nat p.2 := ")"%char]> d0).
  assert (Hd0 : d !! Z.to_nat p.1 = Some "."%char).
  { apply Hdot. apply elem_of_cons. by left. }
  assert (Hd1 : d0 !! Z.to_nat p.2 = Some "."%char).
  { unfold d0. rewrite list_lookup_insert_ne by lia.
    apply Hdot. apply elem_of_cons. right. apply elem_of_cons. by left. }
  destruct (IH d1) as (d' & Hrun & Hlen & Hpairs & Hkeep & Hcount).
  { unfold d1, d0. rewrite !length_insert. done. }
  { done. }
  { intros x Hx. unfold d1, d0.
    assert (x <> p.1) by (intros ->; apply Hn1; by right).
    assert (x <> p.2) by (intros ->; by apply Hn2).
    rewrite Forall_forall in Hb.
    assert (0 <= x).
    { apply list_elem_of_In, in_flat_map in Hx as (q & Hq & Hxq).
      apply list_elem_of_In in Hq. specialize (Hb q Hq).
      destruct Hxq as [<-|[<-|[]]]; lia. }
    rewrite !list_lookup_insert_ne by lia.
    apply Hdot. apply elem_of_cons. right. apply elem_of_cons. by right. }
  exists d'. split; [|split; [|split; [|split]]].
  - simpl. rewrite Z.min_l, Z.max_r by lia.
    rewrite set_char_in_bounds by lia. cbn [bind]. fold d0.
    rewrite set_char_in_bounds by (unfold d0; rewrite length_insert; lia).
    fold d1. exact Hrun.
  - rewrite Hlen. unfold d1, d0. by rewrite !length_insert.
  - intros q Hq. apply elem_of_cons in Hq as [->|Hq]; [|by apply Hpairs].
    rewrite !Hkeep.
    + unfold d1, d0. split.
      * rewrite list_lookup_insert_ne by lia. apply list_lookup_insert_eq. lia.
      * apply list_lookup_insert_eq. rewrite length_insert. lia.
    + by rewrite Z2Nat.id by lia.
    + rewrite Z2Nat.id by lia. intros Hin. apply Hn1. by right.
  - intros x Hx. rewrite !not_elem_of_cons in Hx. destruct Hx as (Hx1 & Hx2 & Hx).
    rewrite Hkeep by done. unfold d1, d0.
    by rewrite !list_lookup_insert_ne by lia.
  - intros m. destruct (Hcount m) as [Ho Hc]. rewrite Ho, Hc. simpl.
    pose proof (count_take_insert "(" d (Z.to_nat p.1) m "(" "." Hd0) as Ho0.
    pose proof (count_take_insert "(" d0 (Z.to_nat p.2) m ")" "." Hd1) as Ho1.
    pose proof (count_take_insert ")" d (Z.to_nat p.1) m "(" "." Hd0) as Hc0.
    pose proof (count_take_insert ")" d0 (Z.to_nat p.2) m ")" "." Hd1) as Hc1.
    fold d0 in Ho0, Hc0. fold d1 in Ho1, Hc1.
    change (Ascii.eqb "." "(") with false in *.
    change (Ascii.eqb "." ")") with false in *.
    change (Ascii.eqb "(" "(") with true in *.
    change (Ascii.eqb ")" ")") with true in *.
    change (Ascii.eqb ")" "(") with false in *.
    change (Ascii.eqb "(" ")") with false in *.
    rewrite ?andb_false_r, ?andb_true_r in *.
    destruct (Nat.ltb_spec (Z.to_nat p.1) m), (Nat.ltb_spec (Z.to_nat p.2) m),
      (Z.ltb_spec p.1 (Z.of_nat m)), (Z.ltb_spec p.2 (Z.of_nat m)); lia.
Qed.

(** ** The whole run *)

Lemma cells_unique N (DP DP' : table) f :
  cells N DP f -> cells N DP' f -> DP = DP'.
Proof.
  intros [[HN Hr] Hc] [[HN' Hr'] Hc'].
  apply list_eq. intros a.
  destruct (decide (a < length DP)%nat) as [Ha|Ha].
  2:{ rewrite !lookup_ge_None_2; [done|lia|lia]. }
  destruct (lookup_lt_is_Some_2 DP a) as [row Hrow]; [lia|].
  destruct (lookup_lt_is_Some_2 DP' a) as [row' Hrow']; [lia|].
  rewrite Hrow, Hrow'. f_equal.
  rewrite Forall_lookup in Hr, Hr'.
  pose proof (Hr _ _ Hrow) as Hl. pose proof (Hr' _ _ Hrow') as Hl'.
  simpl in Hl, Hl'. apply list_eq. intros b.
  destruct (decide (b < length row)%nat) as [Hb|Hb].
  2:{ rewrite !lookup_ge_None_2; [done|lia|lia]. }
  specialize (Hc (Z.of_nat a) (Z.of_nat b) ltac:(lia) ltac:(lia)).
  specialize (Hc' (Z.of_nat a) (Z.of_nat b) ltac:(lia) ltac:(lia)).
  unfold get2 in Hc, Hc'. rewrite !Nat2Z.id in Hc, Hc'.
  destruct (Z.ltb_spec (Z.of_nat a) 0), (Z.ltb_spec (Z.of_nat b) 0); try lia.
  simpl in Hc, Hc'. rewrite Hrow in Hc. rewrite Hrow' in Hc'.
  destruct (row !! b) as [v|], (row' !! b) as [v'|]; congruence.
Qed.

Lemma nussinov_run fuel sequence :
  (length sequence < fuel)%nat ->
  exists structure DP,
    nussinov fuel sequence = Ok (structure, DP)
    /\ filled sequence DP
    /\ window_ok sequence 0 (Z.of_nat (length sequence) - 1) structure
    /\ Z.of_nat (length structure)
       = spec_Score sequence 0 (Z.of_nat (length sequence) - 1).
Proof.
  intros Hfuel.
  destruct (nussinov_table fuel sequence) as (DP & Hf & Heq); [lia|].
  destruct (traceback_window sequence DP (proj1 Hf) fuel 0
              (Z.of_nat (length sequence) - 1) []) as (out & Htb & Hw);
    [lia|lia|lia|].
  exists out, DP. rewrite Heq, Htb. cbn [bind app]. split; [done|].
  split; [done|]. split; [done|].
  apply (traceback_count sequence DP Hf) in Htb; [|lia|lia].
  simpl in Htb. lia.
Qed.

Lemma nussinov_fuel_irrel fuel1 fuel2 sequence :
  (length sequence < fuel1)%nat -> (length sequence < fuel2)%nat ->
  nussinov fuel1 sequence = nussinov fuel2 sequence.
Proof.
  intros H1 H2.
  destruct (nussinov_table fuel1 sequence) as (DP1 & Hf1 & ->); [lia|].
  destruct (nussinov_table fuel2 sequence) as (DP2 & Hf2 & ->); [lia|].
  assert (DP2 = DP1) as -> by (eapply cells_unique; [exact Hf2|exact Hf1]).
  destruct (traceback_window sequence DP1 (proj1 Hf1) fuel1 0
              (Z.of_nat (length sequence) - 1) []) as (o1 & Ht1 & _);
    [lia|lia|lia|].
  destruct (traceback_window sequence DP1 (proj1 Hf1) fuel2 0
              (Z.of_nat (length sequence) - 1) []) as (o2 & Ht2 & _);
    [lia|lia|lia|].
  pose proof (traceback_fuel_mono sequence DP1 fuel1 (fuel1 + fuel2) _ _ _ _
                ltac:(lia) Ht1) as Hm1.
  pose proof (traceback_fuel_mono sequence DP1 fuel2 (fuel1 + fuel2) _ _ _ _
                ltac:(lia) Ht2) as Hm2.
  rewrite Ht1, Ht2. congruence.
Qed.

Lemma in_window_compatible sequence i j p :
  in_window sequence i j p ->
  exists x y, sequence !! Z.to_nat p.1 = Some x
         /\ sequence !! Z.to_nat p.2 = Some y
         /\ (x, y) ∈ watson_crick.
Proof.
  intros (_ & _ & _ & Hc). unfold compatible_at in Hc.
  destruct (sequence !! Z.to_nat p.1) as [x|]; [|done].
  destruct (sequence !! Z.to_nat p.2) as [y|]; [|done].
  exists x, y. split; [done|]. split; [done|].
  unfold spec_compatible in Hc. by apply bool_decide_eq_true in Hc.
Qed.

Lemma window_ok_invariant sequence i j structure :
  0 <= i -> window_ok sequence i j structure ->
  pairing_invariant sequence structure.
Proof.
  intros Hi (Hw & Hnd & Hnc). rewrite Forall_forall in Hw.
  split; [done|]. split.
  - intros p Hp. pose proof (Hw p Hp) as Hin.
    pose proof Hin as (H1 & H2 & H3 & _).
    split; [lia|]. split; [lia|]. by eapply in_window_compatible.
  - intros p q Hp Hq Hlt. destruct (Hnc p q Hp Hq Hlt); [by left|right; lia].
Qed.

Lemma for_loop_ext {St : Type} (body1 body2 : Z -> St -> res St) n k st :
  (forall k' st', body1 k' st' = body2 k' st') ->
  for_loop n k body1 st = for_loop n k body2 st.
Proof.
  intros Hb. revert k st. induction n as [|n IH]; intros k st; simpl; [done|].
  rewrite Hb. destruct (body2 k st); simpl; auto.
Qed.

Section Traceback_scan.
Variable sequence : list ascii.
Variable DP : table.
Hypothesis Hshape : table_shape (Z.of_nat (length sequence)) DP.

(** One iteration of the scan, in terms of the test it makes. *)
Lemma traceback_scan_step self i j n k st :
  0 <= i <= k -> k < j - 4 -> j < Z.of_nat (length sequence) ->
  traceback_scan self i j DP sequence (S n) k st
  = if split_matches DP sequence i j k
    then (if k - 1 <? 0
          then self (k + 1) (j - 1) (st ++ [(k, j)])
          else do structure <- self i (k - 1) (st ++ [(k, j)]) ;
               self (k + 1) (j - 1) structure)
    else traceback_scan self i j DP sequence n (k + 1) st.
Proof.
  intros Hik Hkj Hj. simpl. unfold split_matches.
  destruct (char_at_in_bounds sequence k) as (ck & -> & _); [lia|].
  destruct (char_at_in_bounds sequence j) as (cj & -> & _); [lia|].
  destruct (get2_in_bounds _ DP i j Hshape) as (dij & ->); [lia|lia|].
  destruct (get2_in_bounds _ DP (k + 1) (j - 1) Hshape) as (dr & ->); [lia|lia|].
  cbn [bind]. destruct (Z.ltb_spec (k - 1) 0).
  - destruct (pair_check ck cj); [|done]. cbn [andb bind].
    change (0 + dr + 1) with (dr + 1). by destruct (dij =? dr + 1).
  - destruct (get2_in_bounds _ DP i (k - 1) Hshape) as (dl & ->); [lia|lia|].
    destruct (pair_check ck cj); [|done]. cbn [andb bind].
    by destruct (dij =? dl + dr + 1).
Qed.

Lemma traceback_scan_none self i j n k st :
  0 <= i <= k -> j < Z.of_nat (length sequence) ->
  k + Z.of_nat n <= Z.max k (j - 4) ->
  (forall t, k <= t < k + Z.of_nat n -> split_matches DP sequence i j t = false) ->
  traceback_scan self i j DP sequence n k st = Ok st.
Proof.
  intros Hik Hj. revert k Hik. induction n as [|n IH]; intros k Hik Hkn Hno; [done|].
  rewrite traceback_scan_step by lia. rewrite Hno by lia.
  apply IH; [lia|lia|]. intros t Ht. apply Hno. lia.
Qed.

Lemma traceback_scan_leftmost self i j n k st t :
  0 <= i <= k -> j < Z.of_nat (length sequence) ->
  k + Z.of_nat n <= Z.max k (j - 4) ->
  k <= t < k + Z.of_nat n ->
  split_matches DP sequence i j t = true ->
  (forall t', k <= t' < t -> split_matches DP sequence i j t' = false) ->
  (forall a b st', i <= a -> b < j ->
     exists out, self a b st' = Ok (st' ++ out) /\ window_ok sequence a b out) ->
  exists rest,
    traceback_scan self i j DP sequence n k st = Ok (st ++ (t, j) :: rest)
    /\ Forall (fun p => p.2 < j) rest.
Proof.
  intros Hik Hj. revert k Hik.
  induction n as [|n IH]; intros k Hik Hkn Ht Hm Hskip Hself; [lia|].
  rewrite traceback_scan_step by lia.
  destruct (decide (k = t)) as [->|Hne].
  - rewrite Hm.
    destruct (Hself (t + 1) (j - 1) (st ++ [(t, j)])) as (o2 & H2 & Hw2 & _);
      [lia|lia|].
    destruct (Z.ltb_spec (t - 1) 0).
    + rewrite H2. exists o2. split; [by rewrite <- app_assoc|].
      eapply Forall_impl; [exact Hw2|]. intros p (?&?&?&?). lia.
    + destruct (Hself i (t - 1) (st ++ [(t, j)])) as (o1 & -> & Hw1 & _);
        [lia|lia|].
      cbn [bind].
      destruct (Hself (t + 1) (j - 1) ((st ++ [(t, j)]) ++ o1))
        as (o3 & -> & Hw3 & _); [lia|lia|].
      exists (o1 ++ o3). split; [by rewrite <- !app_assoc|].
      apply Forall_app. split.
      * eapply Forall_impl; [exact Hw1|]. intros p (?&?&?&?). lia.
      * eapply Forall_impl; [exact Hw3|]. intros p (?&?&?&?). lia.
  - rewrite Hskip by lia. apply IH; try done; try lia.
    intros t' Ht'. apply Hskip. lia.
Qed.
End Traceback_scan.

Lemma write_structure_spec sequence structure :
  window_ok sequence 0 (Z.of_nat (length sequence) - 1) structure ->
  exists dot,
    write_structure sequence structure = Ok dot
    /\ length dot = length sequence
    /\ (forall p, p ∈ structure ->
          dot !! Z.to_nat (Z.min p.1 p.2) = Some "("%char
          /\ dot !! Z.to_nat (Z.max p.1 p.2) = Some ")"%char)
    /\ (forall x : nat, (x < length sequence)%nat ->
          Z.of_nat x ∉ indices structure -> dot !! x = Some "."%char)
    /\ count "(" dot = length structure
    /\ count ")" dot = length structure
    /\ well_nested dot.
Proof.
  intros (Hw & Hnd & _).
  assert (Hb : Forall (fun p => 0 <= p.1 /\ p.1 < p.2
                        /\ p.2 < Z.of_nat (length sequence)) structure).
  { eapply Forall_impl; [exact Hw|]. intros p (?&?&?&?). lia. }
  destruct (write_loop_spec structure (replicate (length sequence) "."%char))
    as (dot & Hrun & Hlen & Hpairs & Hkeep & Hcount).
  { by rewrite length_replicate. }
  { done. }
  { intros x Hx. apply (indices_in_window _ _ _ _ _ Hw) in Hx.
    apply lookup_replicate_2. lia. }
  rewrite length_replicate in Hlen.
  assert (Hdots : forall c (m : nat), Ascii.eqb "." c = false ->
            count c (take m (replicate (length sequence) "."%char)) = O).
  { intros c m Hc. rewrite take_replicate. by apply count_replicate_dot. }
  rewrite Forall_forall in Hb.
  exists dot. split; [exact Hrun|]. split; [done|]. split; [|split; [|split; [|split]]].
  - intros p Hp. destruct (Hb p Hp) as (?&?&?).
    rewrite Z.min_l, Z.max_r by lia. by apply Hpairs.
  - intros x Hx Hnin. rewrite Hkeep by done. by apply lookup_replicate_2.
  - destruct (Hcount (length sequence)) as [Ho _].
    rewrite take_ge in Ho by lia. rewrite Ho, Hdots by done.
    apply opened_all. apply Forall_forall. intros p Hp.
    destruct (Hb p Hp) as (?&?&?). lia.
  - destruct (Hcount (length sequence)) as [_ Hc].
    rewrite take_ge in Hc by lia. rewrite Hc, Hdots by done.
    apply closed_all. apply Forall_forall. intros p Hp.
    destruct (Hb p Hp) as (?&?&?). lia.
  - intros m. destruct (Hcount m) as [-> ->]. rewrite !Hdots by done.
    apply closed_le_opened. apply Forall_forall. intros p Hp.
    destruct (Hb p Hp) as (?&?&?). lia.
Qed.

Lemma main_run fuel sequence :
  (length sequence < fuel)%nat ->
  exists structure DP dot,
    main fuel sequence = Ok (Output DP (length structure) structure dot)
    /\ nussinov fuel sequence = Ok (structure, DP)
    /\ write_structure sequence structure = Ok dot
    /\ window_ok sequence 0 (Z.of_nat (length sequence) - 1) structure
    /\ Z.of_nat (length structure)
       = spec_Score sequence 0 (Z.of_nat (length sequence) - 1).
Proof.
  intros Hfuel.
  destruct (nussinov_run fuel sequence Hfuel) as (structure & DP & Hn & _ & Hw & Hc).
  destruct (write_structure_spec sequence structure Hw) as (dot & Hd & _).
  exists structure, DP, dot. unfold main. rewrite Hn. cbn [bind fst snd].
  rewrite Hd. done.
Qed.

(** ** Tables with cells in the range of the tests *)

Lemma int_wrap_small (z : Z) :
  - 2147483648 <= z < 2147483648 -> int_wrap z = z.
Proof. intros Hz. unfold int_wrap. rewrite Z.mod_small; lia. Qed.

Lemma get2_int_cells (DP : table) a b v :
  int_cells DP -> get2 DP a b = Ok v -> - 1073741824 <= v < 1073741824.
Proof.
  intros Hint. unfold get2. destruct ((a <? 0) || (b <? 0)); [done|].
  destruct (DP !! Z.to_nat a) as [row|] eqn:Hrow; [|done].
  destruct (row !! Z.to_nat b) as [w|] eqn:Hw; [|done]. intros [= <-].
  unfold int_cells in Hint. rewrite Forall_lookup in Hint.
  specialize (Hint _ _ Hrow). rewrite Forall_lookup in Hint.
  exact (Hint _ _ Hw).
Qed.

(** On such a table the test of the model, over the integers, is the test
    of the source, over [int]. *)
Lemma split_matches_int_eq (DP : table) sequence i j t :
  int_cells DP ->
  split_matches_int DP sequence i j t = split_matches DP sequence i j t.
Proof.
  intros Hint. unfold split_matches_int, split_matches.
  destruct (char_at sequence t) as [ct| |]; try done.
  destruct (char_at sequence j) as [cj| |]; try done.
  destruct (get2 DP i j) as [dij| |]; try done.
  destruct (get2 DP (t + 1) (j - 1)) as [dr| |] eqn:Hdr.
  - pose proof (get2_int_cells DP _ _ _ Hint Hdr) as Hr.
    destruct (t - 1 <? 0).
    + rewrite int_wrap_small by lia. done.
    + destruct (get2 DP i (t - 1)) as [dl| |] eqn:Hdl; try done.
      pose proof (get2_int_cells DP _ _ _ Hint Hdl) as Hl.
      rewrite (int_wrap_small (dl + dr)) by lia.
      rewrite int_wrap_small by lia. done.
  - destruct (t - 1 <? 0); [done|]. by destruct (get2 DP i (t - 1)).
  - destruct (t - 1 <? 0); [done|]. by destruct (get2 DP i (t - 1)).
Qed.

(** * The claims *)

(** C1: for a sequence of length N >= 1, the traceback on the filled table
    returns as many pairs as the table holds at (0, N-1). *)
Theorem traceback_pair_count_eq_score fuel sequence :
  (1 <= length sequence)%nat ->
  (length sequence < fuel)%nat ->
  exists structure DP,
    nussinov fuel sequence = Ok (structure, DP)
    /\ get2 DP 0 (Z.of_nat (length sequence) - 1)
       = Ok (Z.of_nat (length structure)).
Proof.
  intros HN Hfuel.
  destruct (nussinov_run fuel sequence Hfuel) as (structure & DP & Hn & Hf & _ & Hc).
  exists structure, DP. split; [done|].
  rewrite (filled_upper sequence DP 0 _ Hf) by lia. by rewrite Hc.
Qed.

Lemma traceback_pair_count_eq_score_witness :
  (1 <= length (seq_of "GGGAAAUCC"))%nat
  /\ (length (seq_of "GGGAAAUCC") < 10)%nat
  /\ exists structure DP,
       nussinov 10 (seq_of "GGGAAAUCC") = Ok (structure, DP)
       /\ get2 DP 0 (Z.of_nat (length (seq_of "GGGAAAUCC")) - 1)
          = Ok (Z.of_nat (length structure)).
Proof.
  split; [vm_compute; lia|]. split; [vm_compute; lia|].
  apply traceback_pair_count_eq_score; vm_compute; lia.
Defined.

(** C2: every entry (i, j), 0 <= i <= j < N, of the table that nussinov
    builds equals the recurrence over the table's own entries: 0 when
    j - i <= 4, otherwise the maximum of the entry (i, j-1) and of the
    candidates 1 + (i, t-1) + (t+1, j-1) of the compatible t in [i, j-5],
    the left term being 0 for t = i. *)
Theorem table_satisfies_recurrence fuel sequence :
  (length sequence < fuel)%nat ->
  exists structure DP,
    nussinov fuel sequence = Ok (structure, DP)
    /\ forall i j, 0 <= i -> i <= j -> j < Z.of_nat (length sequence) ->
         get2 DP i j = Ok (spec_recurrence (table_Score DP) sequence i j).
Proof.
  intros Hfuel.
  destruct (nussinov_run fuel sequence Hfuel) as (structure & DP & Hn & Hf & _).
  exists structure, DP. split; [done|]. intros i j Hi Hij Hj.
  rewrite (filled_upper sequence DP i j Hf) by lia. f_equal.
  rewrite spec_Score_unfold. apply spec_recurrence_ext.
  intros a b Ha Hb. unfold table_Score.
  by rewrite (filled_upper sequence DP a b Hf) by lia.
Qed.

Lemma table_satisfies_recurrence_witness :
  (length (seq_of "GGGAAAUCC") < 10)%nat
  /\ exists structure DP,
       nussinov 10 (seq_of "GGGAAAUCC") = Ok (structure, DP)
       /\ forall i j, 0 <= i -> i <= j ->
            j < Z.of_nat (length (seq_of "GGGAAAUCC")) ->
            get2 DP i j
            = Ok (spec_recurrence (table_Score DP) (seq_of "GGGAAAUCC") i j).
Proof.
  split; [vm_compute; lia|].
  apply table_satisfies_recurrence; vm_compute; lia.
Defined.

(** C3: the pairing returned by the traceback satisfies the pairing
    invariant: no index in two pairs, j - i >= 5 for every pair, the symbols
    of a pair are one of (A,U), (U,A), (C,G), (G,C), and no two pairs
    cross. *)
Theorem traceback_pairing_invariant fuel sequence :
  (length sequence < fuel)%nat ->
  exists structure DP,
    nussinov fuel sequence = Ok (structure, DP)
    /\ pairing_invariant sequence structure.
Proof.
  intros Hfuel.
  destruct (nussinov_run fuel sequence Hfuel) as (structure & DP & Hn & _ & Hw & _).
  exists structure, DP. split; [done|].
  eapply window_ok_invariant; [|exact Hw]. lia.
Qed.

Lemma traceback_pairing_invariant_witness :
  (length (seq_of "GGGAAAUCC") < 10)%nat
  /\ exists structure DP,
       nussinov 10 (seq_of "GGGAAAUCC") = Ok (structure, DP)
       /\ pairing_invariant (seq_of "GGGAAAUCC") structure.
Proof.
  split; [vm_compute; lia|].
  apply traceback_pairing_invariant; vm_compute; lia.
Defined.

(** C4: OPT never reads the table it is given: its result is the same for
    any two tables, so every sub-score is recomputed by recursion and not
    read from the cells filled before. *)
Theorem OPT_ignores_table fuel i j sequence (DP1 DP2 : table) :
  OPT fuel i j sequence DP1 = OPT fuel i j sequence DP2.
Proof.
  revert i j. induction fuel as [|fuel IH]; intros i j; simpl; [done|].
  destruct (i >=? j - 4); [done|]. rewrite IH. unfold for_range.
  rewrite (for_loop_ext
             (OPT_body (fun a b => OPT fuel a b sequence DP1) i j sequence)
             (OPT_body (fun a b => OPT fuel a b sequence DP2) i j sequence));
    [done|].
  intros t pairing. unfold OPT_body. by rewrite !IH.
Qed.

(** The same call on a table whose every cell holds 7: a read of any cell
    would change the result, which is still the score 2. *)
Example OPT_recomputes_GGGAAAUCC :
  OPT 9 0 8 (seq_of "GGGAAAUCC") (replicate 9 (replicate 9 7)) = Ok 2.
Proof. vm_compute. reflexivity. Qed.

(** C5, as amended: when no transition applies to a window, on a table
    whose cells keep the sums of the tests within [int], the traceback
    raises nothing; it returns with the structure as it was. *)
Theorem traceback_no_transition_returns sequence (DP : table) fuel i j st :
  table_shape (Z.of_nat (length sequence)) DP ->
  int_cells DP ->
  0 <= i -> i < j -> j < Z.of_nat (length sequence) ->
  no_transition DP sequence i j ->
  traceback (S fuel) i j st DP sequence = Ok st.
Proof.
  intros Hs _ Hi Hij Hj [Hne Hno]. simpl.
  destruct (Z.leb_spec j i); [lia|].
  destruct (get2_in_bounds _ DP i j Hs) as (dij & Hdij); [lia|lia|].
  destruct (get2_in_bounds _ DP i (j - 1) Hs) as (dij1 & Hdij1); [lia|lia|].
  rewrite Hdij, Hdij1 in *. cbn [bind].
  destruct (Z.eqb_spec dij dij1) as [->|_]; [done|].
  apply (traceback_scan_none sequence DP Hs); [lia|lia|lia|].
  intros t Ht. apply Hno. lia.
Qed.

Lemma traceback_no_transition_returns_witness :
  int_cells inconsistent_table
  /\ no_transition inconsistent_table (seq_of "AAAAAA") 0 5
  /\ traceback 1 0 5 [] inconsistent_table (seq_of "AAAAAA") = Ok [].
Proof.
  assert (Hno : no_transition inconsistent_table (seq_of "AAAAAA") 0 5).
  { split; [vm_compute; congruence|].
    intros t Ht. assert (t = 0) as -> by lia. reflexivity. }
  assert (Hint : int_cells inconsistent_table).
  { repeat (constructor; try lia). }
  split; [exact Hint|]. split; [exact Hno|].
  apply (traceback_no_transition_returns (seq_of "AAAAAA") inconsistent_table).
  - split; [reflexivity|]. vm_compute. repeat constructor.
  - exact Hint.
  - lia.
  - lia.
  - vm_compute. reflexivity.
  - exact Hno.
Defined.

(** C5, as stated, fails: on this table no transition applies to the window
    0..5, and the traceback does not fail. *)
Lemma traceback_no_assertion_counterexample :
  ~ (no_transition inconsistent_table (seq_of "AAAAAA") 0 5 ->
     forall r, traceback 1 0 5 [] inconsistent_table (seq_of "AAAAAA") <> Ok r).
Proof.
  intros Hclaim. apply (Hclaim) with (r := []); [|reflexivity].
  split; [vm_compute; congruence|].
  intros t Ht. assert (t = 0) as -> by lia. reflexivity.
Qed.

(** C6: the rendered string has the length of the sequence, holds an
    opening bracket at the smaller and a closing bracket at the larger index
    of each pair and a dot at every unpaired position; it has as many
    opening as closing brackets as there are pairs, and no prefix of it has
    more closing than opening brackets. *)
Theorem write_structure_well_formed fuel sequence :
  (length sequence < fuel)%nat ->
  exists out,
    main fuel sequence = Ok out
    /\ length (out_dot_brac out) = length sequence
    /\ (forall p, p ∈ out_pairs out ->
          out_dot_brac out !! Z.to_nat (Z.min p.1 p.2) = Some "("%char
          /\ out_dot_brac out !! Z.to_nat (Z.max p.1 p.2) = Some ")"%char)
    /\ (forall x : nat, (x < length sequence)%nat ->
          Z.of_nat x ∉ indices (out_pairs out) ->
          out_dot_brac out !! x = Some "."%char)
    /\ count "(" (out_dot_brac out) = length (out_pairs out)
    /\ count ")" (out_dot_brac out) = length (out_pairs out)
    /\ well_nested (out_dot_brac out).
Proof.
  intros Hfuel.
  destruct (main_run fuel sequence Hfuel)
    as (structure & DP & dot & Hm & _ & Hd & Hw & _).
  destruct (write_structure_spec sequence structure Hw) as (dot' & Hd' & Hspec).
  assert (dot' = dot) as -> by congruence.
  exists (Output DP (length structure) structure dot). split; [exact Hm|].
  exact Hspec.
Qed.

Lemma write_structure_well_formed_witness :
  (length (seq_of "GGGAAAUCC") < 10)%nat
  /\ exists out,
       main 10 (seq_of "GGGAAAUCC") = Ok out
       /\ length (out_dot_brac out) = length (seq_of "GGGAAAUCC")
       /\ (forall p, p ∈ out_pairs out ->
             out_dot_brac out !! Z.to_nat (Z.min p.1 p.2) = Some "("%char
             /\ out_dot_brac out !! Z.to_nat (Z.max p.1 p.2) = Some ")"%char)
       /\ (forall x : nat, (x < length (seq_of "GGGAAAUCC"))%nat ->
             Z.of_nat x ∉ indices (out_pairs out) ->
             out_dot_brac out !! x = Some "."%char)
       /\ count "(" (out_dot_brac out) = length (out_pairs out)
       /\ count ")" (out_dot_brac out) = length (out_pairs out)
       /\ well_nested (out_dot_brac out).
Proof.
  split; [vm_compute; lia|].
  apply write_structure_well_formed; vm_compute; lia.
Defined.

(** C7: the run is deterministic: any two runs on one sequence print the
    same table, pairs and string; and in a window whose skip equality fails
    the traceback emits the pair of the smallest split point that passes
    the test, and no other pair that ends at j, on every table whose cells
    keep the sums of the tests within [int]. *)
Theorem pipeline_deterministic_leftmost fuel1 fuel2 sequence :
  (length sequence < fuel1)%nat ->
  (length sequence < fuel2)%nat ->
  (exists out, main fuel1 sequence = Ok out /\ main fuel2 sequence = Ok out)
  /\ (forall (DP : table) fuel i j st t,
        table_shape (Z.of_nat (length sequence)) DP ->
        int_cells DP ->
        0 <= i -> j < Z.of_nat (length sequence) ->
        (Z.to_nat (j - i) <= fuel)%nat ->
        get2 DP i j <> get2 DP i (j - 1) ->
        i <= t <= j - 5 ->
        split_matches DP sequence i j t = true ->
        (forall t', i <= t' < t -> split_matches DP sequence i j t' = false) ->
        exists rest,
          traceback (S fuel) i j st DP sequence = Ok (st ++ (t, j) :: rest)
          /\ Forall (fun p => p.2 < j) rest).
Proof.
  intros H1 H2. split.
  - destruct (main_run fuel1 sequence H1) as (structure & DP & dot & Hm & _).
    exists (Output DP (length structure) structure dot). split; [exact Hm|].
    rewrite <- Hm. unfold main.
    by rewrite (nussinov_fuel_irrel fuel1 fuel2 sequence H1 H2).
  - intros DP fuel i j st t Hs _ Hi Hj Hfuel Hne Ht Hm Hskip. simpl.
    destruct (Z.leb_spec j i); [lia|].
    destruct (get2_in_bounds _ DP i j Hs) as (dij & Hdij); [lia|lia|].
    destruct (get2_in_bounds _ DP i (j - 1) Hs) as (dij1 & Hdij1); [lia|lia|].
    rewrite Hdij, Hdij1 in *. cbn [bind].
    destruct (Z.eqb_spec dij dij1) as [->|_]; [done|].
    apply (traceback_scan_leftmost sequence DP Hs); try done; try lia.
    intros a b st' Ha Hb. apply (traceback_window sequence DP Hs); lia.
Qed.

Lemma pipeline_deterministic_leftmost_witness :
  (length (seq_of "AACCCCU") < 8)%nat
  /\ (length (seq_of "AACCCCU") < 9)%nat
  /\ (exists out, main 8 (seq_of "AACCCCU") = Ok out
                /\ main 9 (seq_of "AACCCCU") = Ok out)
  /\ int_cells tie_table
  /\ split_matches tie_table (seq_of "AACCCCU") 0 6 0 = true
  /\ split_matches tie_table (seq_of "AACCCCU") 0 6 1 = true
  /\ exists rest,
       traceback 7 0 6 [] tie_table (seq_of "AACCCCU") = Ok ((0, 6) :: rest)
       /\ Forall (fun p => p.2 < 6) rest.
Proof.
  split; [vm_compute; lia|]. split; [vm_compute; lia|].
  destruct (pipeline_deterministic_leftmost 8 9 (seq_of "AACCCCU"))
    as [Hdet Hleft]; [vm_compute; lia|vm_compute; lia|].
  assert (Hint : int_cells tie_table).
  { repeat (constructor; try lia). }
  split; [exact Hdet|]. split; [exact Hint|].
  split; [reflexivity|]. split; [reflexivity|].
  apply (Hleft tie_table 6%nat 0 6 [] 0).
  - split; [reflexivity|]. vm_compute. repeat constructor.
  - exact Hint.
  - lia.
  - vm_compute. reflexivity.
  - vm_compute. lia.
  - vm_compute. congruence.
  - lia.
  - reflexivity.
  - intros t' Ht'. lia.
Defined.

(** C8: a sequence of length at most 5, the empty one included, yields no
    pair and a string of dots of its length; AAAAA is the instance of the
    witness. *)
Theorem short_sequence_unpaired fuel sequence :
  (length sequence <= 5)%nat ->
  (length sequence < fuel)%nat ->
  exists DP,
    main fuel sequence
    = Ok (Output DP 0 [] (replicate (length sequence) "."%char)).
Proof.
  intros Hshort Hfuel.
  destruct (main_run fuel sequence Hfuel)
    as (structure & DP & dot & Hm & _ & Hd & _ & Hc).
  rewrite spec_Score_short in Hc by lia.
  assert (structure = []) as -> by (apply nil_length_inv; lia).
  exists DP. rewrite Hm. simpl in Hd. injection Hd as <-. done.
Qed.

Lemma short_sequence_unpaired_witness :
  (length (seq_of "AAAAA") <= 5)%nat
  /\ (length (seq_of "AAAAA") < 6)%nat
  /\ exists DP, main 6 (seq_of "AAAAA") = Ok (Output DP 0 [] (seq_of ".....")).
Proof.
  split; [vm_compute; lia|]. split; [vm_compute; lia|].
  apply (short_sequence_unpaired 6 (seq_of "AAAAA")); vm_compute; lia.
Defined.

(** C9: OPT is total: on any sequence of symbols and any window
    0 <= i <= j < N it returns a value, given fuel for the window. *)
Theorem OPT_total fuel i j sequence (DP : table) :
  0 <= i -> i <= j -> j < Z.of_nat (length sequence) ->
  (Z.to_nat (j - i) < fuel)%nat ->
  exists v, OPT fuel i j sequence DP = Ok v.
Proof.
  intros Hi Hij Hj Hfuel. exists (spec_Score sequence i j).
  by apply OPT_correct.
Qed.

Lemma OPT_total_witness :
  0 <= 0 /\ 0 <= 8 /\ 8 < Z.of_nat (length (seq_of "GXGA?AUCC"))
  /\ (Z.to_nat (8 - 0) < 9)%nat
  /\ exists v, OPT 9 0 8 (seq_of "GXGA?AUCC") [] = Ok v.
Proof.
  split; [lia|]. split; [lia|]. split; [vm_compute; reflexivity|].
  split; [vm_compute; lia|].
  apply OPT_total; [lia|lia|vm_compute; reflexivity|vm_compute; lia].
Defined.

(** C10: in the table that nussinov hands to the traceback every cell
    (i, i-1), i >= 1, holds 0. *)
Theorem below_diagonal_zero fuel sequence :
  (length sequence < fuel)%nat ->
  exists structure DP,
    nussinov fuel sequence = Ok (structure, DP)
    /\ forall i, 1 <= i -> i < Z.of_nat (length sequence) ->
         get2 DP i (i - 1) = Ok 0.
Proof.
  intros Hfuel.
  destruct (nussinov_run fuel sequence Hfuel) as (structure & DP & Hn & Hf & _).
  exists structure, DP. split; [done|]. intros i Hi HiN.
  destruct Hf as [_ Hc]. rewrite Hc by lia. f_equal.
  apply spec_Score_short. lia.
Qed.

Lemma below_diagonal_zero_witness :
  (length (seq_of "GGGAAAUCC") < 10)%nat
  /\ exists structure DP,
       nussinov 10 (seq_of "GGGAAAUCC") = Ok (structure, DP)
       /\ forall i, 1 <= i -> i < Z.of_nat (length (seq_of "GGGAAAUCC")) ->
            get2 DP i (i - 1) = Ok 0.
Proof.
  split; [vm_compute; lia|].
  apply below_diagonal_zero; vm_compute; lia.
Defined.

(** * Further properties of the code *)

(** ** Scores are maxima over the pairings of a window *)

Lemma foldr_max_elem (u x : Z) (l : list Z) : x ∈ l -> x <= foldr Z.max u l.
Proof.
  induction l as [|y l IH]; intros Hx; [by apply elem_of_nil in Hx|].
  apply elem_of_cons in Hx as [->|Hx]; simpl; [lia|]. specialize (IH Hx). lia.
Qed.

Lemma indices_filter_subset (P : Z * Z -> Prop) `{!forall q, Decision (P q)}
    (ps : pairs) x :
  x ∈ indices (filter P ps) -> x ∈ indices ps.
Proof.
  induction ps as [|q ps IH]; [done|].
  rewrite filter_cons. change (indices (q :: ps)) with (q.1 :: q.2 :: indices ps).
  destruct (decide (P q)).
  - change (indices (q :: filter P ps)) with (q.1 :: q.2 :: indices (filter P ps)).
    rewrite !elem_of_cons. intros [?|[?|?]]; auto.
  - rewrite !elem_of_cons. auto.
Qed.

Lemma indices_filter_NoDup (P : Z * Z -> Prop) `{!forall q, Decision (P q)}
    (ps : pairs) :
  NoDup (indices ps) -> NoDup (indices (filter P ps)).
Proof.
  induction ps as [|q ps IH]; [done|].
  rewrite filter_cons. change (indices (q :: ps)) with (q.1 :: q.2 :: indices ps).
  intros Hnd. apply NoDup_cons in Hnd as [Hn1 Hnd].
  apply NoDup_cons in Hnd as [Hn2 Hnd]. rewrite elem_of_cons in Hn1.
  destruct (decide (P q)); [|by apply IH].
  change (indices (q :: filter P ps)) with (q.1 :: q.2 :: indices (filter P ps)).
  apply NoDup_cons. split.
  { rewrite elem_of_cons. intros [?|Hx]; [tauto|].
    apply indices_filter_subset in Hx. tauto. }
  apply NoDup_cons. split; [|by apply IH].
  intros Hx. by apply indices_filter_subset in Hx.
Qed.

Lemma indices_elem (ps : pairs) q : q ∈ ps -> q.1 ∈ indices ps /\ q.2 ∈ indices ps.
Proof.
  intros Hq. unfold indices. rewrite !list_elem_of_In, !in_flat_map.
  apply list_elem_of_In in Hq. split; exists q; simpl; auto.
Qed.

Lemma window_ok_perm sequence i j (ps qs : pairs) :
  ps ≡ₚ qs -> window_ok sequence i j ps -> window_ok sequence i j qs.
Proof.
  intros Hp (Hw & Hnd & Hnc). split; [by rewrite <- Hp|]. split.
  - assert (Hi : indices ps ≡ₚ indices qs).
    { unfold indices. by apply Permutation_flat_map. }
    by rewrite <- Hi.
  - intros p q Hpin Hqin. apply Hnc; by rewrite Hp.
Qed.

(** The pair that closes at [j] splits the rest of a pairing of [i..j] into
    a pairing of the window to its left and one of the window it encloses. *)
Lemma window_ok_split sequence i j t (ps : pairs) :
  window_ok sequence i j ((t, j) :: ps) ->
  window_ok sequence i (t - 1) (filter (fun q => q.1 < t) ps)
  /\ window_ok sequence (t + 1) (j - 1) (filter (fun q => ~ q.1 < t) ps).
Proof.
  intros (Hw & Hnd & Hnc).
  apply Forall_cons in Hw as [(Hit & Htj & _ & _) Hw]. simpl in Hit, Htj.
  change (indices ((t, j) :: ps)) with (t :: j :: indices ps) in Hnd.
  apply NoDup_cons in Hnd as [Hn1 Hnd]. apply NoDup_cons in Hnd as [Hn2 Hnd].
  rewrite elem_of_cons in Hn1. rewrite Forall_forall in Hw.
  assert (Hin : forall q, q ∈ ps -> (t, j) ∈ (t, j) :: ps /\ q ∈ (t, j) :: ps).
  { intros q Hq. split; [by left|by right]. }
  split; (split; [|split]).
  - apply Forall_forall. intros q Hq. apply list_elem_of_filter in Hq as [Hlt Hq].
    destruct (Hw q Hq) as (?&?&?&?). destruct (Hin q Hq) as [Hp Hq'].
    destruct (Hnc q (t, j) Hq' Hp Hlt) as [Hc|Hc]; simpl in Hc; [|lia].
    repeat split; try done; lia.
  - by apply indices_filter_NoDup.
  - intros p q Hp Hq. apply list_elem_of_filter in Hp as [_ Hp].
    apply list_elem_of_filter in Hq as [_ Hq].
    apply Hnc; by right.
  - apply Forall_forall. intros q Hq. apply list_elem_of_filter in Hq as [Hge Hq].
    destruct (Hw q Hq) as (?&?&?&?). destruct (Hin q Hq) as [Hp Hq'].
    destruct (indices_elem ps q Hq) as [Hi1 Hi2].
    assert (q.1 <> t) by (intros Heq; apply Hn1; right; by rewrite <- Heq).
    assert (q.2 <> j) by (intros Heq; apply Hn2; by rewrite <- Heq).
    repeat split; try done; lia.
  - by apply indices_filter_NoDup.
  - intros p q Hp Hq. apply list_elem_of_filter in Hp as [_ Hp].
    apply list_elem_of_filter in Hq as [_ Hq].
    apply Hnc; by right.
Qed.

Lemma pairing_le_score sequence n i j (ps : pairs) :
  (Z.to_nat (j - i) <= n)%nat ->
  window_ok sequence i j ps ->
  Z.of_nat (length ps) <= spec_Score sequence i j.
Proof.
  revert i j ps. induction n as [|n IH]; intros i j ps Hn Hok.
  { destruct ps as [|p ps]; [apply spec_Score_nonneg|].
    destruct Hok as (Hw & _). apply Forall_cons in Hw as [(?&?&?&?) _]. lia. }
  destruct (Z.le_gt_cases (j - i) 4) as [Hshort|Hlong].
  { destruct ps as [|p ps]; [apply spec_Score_nonneg|].
    destruct Hok as (Hw & _). apply Forall_cons in Hw as [(?&?&?&?) _]. lia. }
  rewrite spec_Score_unfold. unfold spec_recurrence.
  destruct (Z.leb_spec (j - i) 4); [lia|].
  destruct (decide (Exists (fun p => p.2 = j) ps)) as [Hex|Hnex].
  - apply Exists_exists in Hex as ([t j'] & Hp & Hj). simpl in Hj. subst j'.
    apply elem_of_Permutation in Hp as (ps' & Hperm).
    apply (window_ok_perm _ _ _ _ _ Hperm) in Hok.
    destruct (window_ok_split _ _ _ _ _ Hok) as [Hl Hr].
    destruct Hok as (Hw & _). apply Forall_cons in Hw as [(Hit & Htj & _ & Hc) _].
    simpl in Hit, Htj, Hc.
    apply IH in Hl; [|lia]. apply IH in Hr; [|lia].
    pose proof (Permutation_length (filter_app_complement (fun q : Z * Z => q.1 < t) ps'))
      as Hlen.
    rewrite length_app in Hlen. rewrite Hperm. cbn [length].
    etrans; [|apply foldr_max_elem].
    2:{ unfold spec_candidates. apply list_elem_of_omap. exists t. split.
        - apply elem_of_seqZ. lia.
        - unfold spec_candidate. rewrite Hc. reflexivity. }
    destruct (Z.eqb_spec t i) as [->|].
    + rewrite spec_Score_short in Hl by lia. lia.
    + lia.
  - apply not_Exists_Forall in Hnex; [|apply _].
    etrans; [|apply foldr_max_ge]. apply (IH i (j - 1)); [lia|].
    destruct Hok as (Hw & Hnd & Hnc). split; [|done].
    rewrite Forall_forall in Hw, Hnex. apply Forall_forall. intros p Hp.
    destruct (Hw p Hp) as (?&?&?&?). specialize (Hnex p Hp). simpl in Hnex.
    repeat split; try done; lia.
Qed.

Lemma score_achieved sequence i j :
  0 <= i -> j < Z.of_nat (length sequence) ->
  exists ps : pairs,
    window_ok sequence i j ps
    /\ Z.of_nat (length ps) = spec_Score sequence i j.
Proof.
  intros Hi Hj.
  destruct (nussinov_table (length sequence) sequence) as (DP & Hf & _); [lia|].
  destruct (traceback_window sequence DP (proj1 Hf) (S (Z.to_nat (j - i))) i j [])
    as (out & Htb & Hw); [lia|lia|lia|].
  exists out. split; [done|].
  apply (traceback_count sequence DP Hf) in Htb; [|lia|lia].
  simpl in Htb. lia.
Qed.

Lemma invariant_window_ok sequence (ps : pairs) :
  pairing_invariant sequence ps ->
  window_ok sequence 0 (Z.of_nat (length sequence) - 1) ps.
Proof.
  intros (Hnd & Hp & Hnc). split; [|split; [done|]].
  - apply Forall_forall. intros p Hin.
    destruct (Hp p Hin) as (H0 & H5 & x & y & Hx & Hy & Hxy).
    pose proof (lookup_lt_Some _ _ _ Hy) as Hlt.
    repeat split; try lia.
    unfold compatible_at. rewrite Hx, Hy. unfold spec_compatible.
    by apply bool_decide_eq_true.
  - intros p q Hpin Hqin Hlt. destruct (Hnc p q Hpin Hqin Hlt); [by left|right; lia].
Qed.

Lemma window_ok_app sequence i k j (o1 o2 : pairs) :
  i <= k + 1 -> k <= j ->
  window_ok sequence i k o1 -> window_ok sequence (k + 1) j o2 ->
  window_ok sequence i j (o1 ++ o2).
Proof.
  intros Hik Hkj (Hw1 & Hnd1 & Hnc1) (Hw2 & Hnd2 & Hnc2).
  pose proof (fun x => indices_in_window _ _ _ _ x Hw1) as Hb1.
  pose proof (fun x => indices_in_window _ _ _ _ x Hw2) as Hb2.
  rewrite Forall_forall in Hw1, Hw2. split; [|split].
  - apply Forall_app. split; apply Forall_forall; intros p Hp.
    + destruct (Hw1 p Hp) as (?&?&?&?). repeat split; try done; lia.
    + destruct (Hw2 p Hp) as (?&?&?&?). repeat split; try done; lia.
  - rewrite indices_app. apply NoDup_app. split; [done|]. split; [|done].
    intros x Hx1 Hx2. apply Hb1 in Hx1. apply Hb2 in Hx2. lia.
  - intros p q Hp Hq Hlt. rewrite elem_of_app in Hp, Hq.
    destruct Hp as [Hp|Hp], Hq as [Hq|Hq];
      try (pose proof (Hw1 _ Hp) as (?&?&?&?));
      try (pose proof (Hw2 _ Hp) as (?&?&?&?));
      try (pose proof (Hw1 _ Hq) as (?&?&?&?));
      try (pose proof (Hw2 _ Hq) as (?&?&?&?));
      try lia.
    + by apply Hnc1.
    + by apply Hnc2.
Qed.

(** A pairing of [i..j] without its pair that closes at [j], if it has one,
    is a pairing of [i..j-1]. *)
Lemma window_ok_drop_last sequence i j (ps : pairs) :
  window_ok sequence i j ps ->
  exists ps' : pairs,
    window_ok sequence i (j - 1) ps' /\ (length ps <= length ps' + 1)%nat.
Proof.
  intros Hok.
  assert (Hnarrow : forall qs : pairs,
            window_ok sequence i j qs -> Forall (fun q => q.2 <> j) qs ->
            window_ok sequence i (j - 1) qs).
  { intros qs (Hw & Hnd & Hnc) Hne. split; [|done].
    rewrite Forall_forall in Hw, Hne. apply Forall_forall. intros q Hq.
    destruct (Hw q Hq) as (?&?&?&?). specialize (Hne q Hq). simpl in Hne.
    repeat split; try done; lia. }
  destruct (decide (Exists (fun p => p.2 = j) ps)) as [Hex|Hnex].
  - apply Exists_exists in Hex as ([t j'] & Hp & Hj). simpl in Hj. subst j'.
    apply elem_of_Permutation in Hp as (ps' & Hperm).
    apply (window_ok_perm _ _ _ _ _ Hperm) in Hok. exists ps'. split.
    + destruct Hok as (Hw & Hnd & Hnc).
      change (indices ((t, j) :: ps')) with (t :: j :: indices ps') in Hnd.
      apply NoDup_cons in Hnd as [_ Hnd]. apply NoDup_cons in Hnd as [Hn2 Hnd].
      apply Forall_cons in Hw as [_ Hw]. apply Hnarrow.
      * split; [done|]. split; [done|]. intros p q Hp Hq. apply Hnc; by right.
      * apply Forall_forall. intros q Hq Heq.
        destruct (indices_elem ps' q Hq) as [_ Hi2]. apply Hn2. by rewrite <- Heq.
    + rewrite Hperm. simpl. lia.
  - apply not_Exists_Forall in Hnex; [|apply _]. exists ps. split; [|lia].
    by apply Hnarrow.
Qed.

Lemma length_indices (ps : pairs) : length (indices ps) = (2 * length ps)%nat.
Proof. induction ps as [|p ps IH]; simpl; [done|]. rewrite IH. lia. Qed.

(** A pairing uses two positions of its window per pair. *)
Lemma window_ok_length sequence i j (ps : pairs) :
  i <= j + 1 -> window_ok sequence i j ps ->
  2 * Z.of_nat (length ps) <= j - i + 1.
Proof.
  intros Hij (Hw & Hnd & _).
  assert (Hsub : indices ps ⊆+ seqZ i (j - i + 1)).
  { apply NoDup_submseteq; [done|]. intros x Hx.
    apply (indices_in_window _ _ _ _ _ Hw) in Hx. apply elem_of_seqZ. lia. }
  apply submseteq_length in Hsub. rewrite length_indices, length_seqZ in Hsub. lia.
Qed.

Lemma traceback_scan_acc (self : Z -> Z -> pairs -> res pairs) i j
    (DP : table) sequence n k st :
  (forall a b st', self a b st' = (do out <- self a b [] ; Ok (st' ++ out))) ->
  traceback_scan self i j DP sequence n k st
  = (do out <- traceback_scan self i j DP sequence n k [] ; Ok (st ++ out)).
Proof.
  intros Hself. revert k. induction n as [|n IH]; intros k.
  { simpl. by rewrite app_nil_r. }
  simpl. destruct (char_at sequence k) as [ck| |]; try done.
  destruct (char_at sequence j) as [cj| |]; try done. cbn [bind].
  destruct (pair_check ck cj); [|apply IH].
  destruct (k - 1 <? 0).
  - destruct (get2 DP i j) as [dij| |]; try done.
    destruct (get2 DP (k + 1) (j - 1)) as [dr| |]; try done. cbn [bind].
    destruct (dij =? dr + 1); [|apply IH].
    rewrite (Hself _ _ (st ++ [(k, j)])), (Hself _ _ [(k, j)]).
    destruct (self (k + 1) (j - 1) []) as [o| |]; try done. cbn [bind].
    by rewrite <- app_assoc.
  - destruct (get2 DP i j) as [dij| |]; try done.
    destruct (get2 DP i (k - 1)) as [dl| |]; try done.
    destruct (get2 DP (k + 1) (j - 1)) as [dr| |]; try done. cbn [bind].
    destruct (dij =? dl + dr + 1); [|apply IH].
    rewrite (Hself _ _ (st ++ [(k, j)])), (Hself _ _ [(k, j)]).
    destruct (self i (k - 1) []) as [o1| |]; try done. cbn [bind].
    rewrite (Hself _ _ ((st ++ [(k, j)]) ++ o1)), (Hself _ _ ([(k, j)] ++ o1)).
    destruct (self (k + 1) (j - 1) []) as [o2| |]; try done. cbn [bind].
    by rewrite <- !app_assoc.
Qed.

Lemma set_char_Ok (s s' : list ascii) (t : Z) (c : ascii) :
  set_char s t c = Ok s' <->
  0 <= t < Z.of_nat (length s) /\ s' = <[Z.to_nat t := c]> s.
Proof.
  unfold set_char. destruct (Z.ltb_spec t 0).
  { split; [done|lia]. }
  destruct (Nat.ltb_spec (Z.to_nat t) (length s)).
  - split; [intros [= <-]; split; [lia|done]|intros [_ ->]; done].
  - split; [done|lia].
Qed.

(** The characters of a dot-bracket string. *)
Lemma write_loop_inv (ps : pairs) (d d' : list ascii) :
  for_each ps
    (fun s dot_bracket =>
       do dot_bracket <- set_char dot_bracket (Z.min s.1 s.2) "(" ;
       set_char dot_bracket (Z.max s.1 s.2) ")") d = Ok d' ->
  length d' = length d
  /\ Forall (fun p => 0 <= p.1 < Z.of_nat (length d)
                    /\ 0 <= p.2 < Z.of_nat (length d)) ps
  /\ (Forall (fun c => c ∈ [".";  "("; ")"]%char) d ->
      Forall (fun c => c ∈ ["."; "("; ")"]%char) d').
Proof.
  revert d. induction ps as [|p ps IH]; intros d Hrun; simpl in Hrun.
  { injection Hrun as <-. split; [done|]. split; [constructor|done]. }
  apply bind_Ok in Hrun as (d1 & H1 & Hrun).
  apply bind_Ok in H1 as (d0 & H0 & H1).
  apply set_char_Ok in H0 as [Hb0 ->]. apply set_char_Ok in H1 as [Hb1 ->].
  rewrite length_insert in Hb1.
  destruct (IH _ Hrun) as (Hlen & Hps & Hchars). rewrite !length_insert in Hlen, Hps.
  split; [done|]. split.
  - apply Forall_cons. split; [lia|done].
  - intros Hd. apply Hchars. apply Forall_insert; [apply Forall_insert; [done|]|].
    + apply elem_of_cons. right. apply elem_of_cons. by left.
    + apply elem_of_cons. right. apply elem_of_cons. right. apply elem_of_cons. by left.
Qed.

Lemma write_loop_ok (ps : pairs) (d : list ascii) :
  Forall (fun p => 0 <= p.1 < Z.of_nat (length d)
                /\ 0 <= p.2 < Z.of_nat (length d)) ps ->
  exists d',
    for_each ps
      (fun s dot_bracket =>
         do dot_bracket <- set_char dot_bracket (Z.min s.1 s.2) "(" ;
         set_char dot_bracket (Z.max s.1 s.2) ")") d = Ok d'.
Proof.
  revert d. induction ps as [|p ps IH]; intros d Hb; simpl; [by exists d|].
  apply Forall_cons in Hb as [[Hp1 Hp2] Hb].
  rewrite set_char_in_bounds by lia. cbn [bind].
  rewrite set_char_in_bounds by (rewrite length_insert; lia).
  apply IH. by rewrite !length_insert.
Qed.

(** ** The predicate *)

(** X1: pair_check does not depend on the order of its two symbols. *)
Theorem pair_check_symmetric (a b : ascii) : pair_check a b = pair_check b a.
Proof.
  unfold pair_check.
  destruct (Ascii.eqb a "A"), (Ascii.eqb a "U"), (Ascii.eqb a "C"),
    (Ascii.eqb a "G"), (Ascii.eqb b "A"), (Ascii.eqb b "U"),
    (Ascii.eqb b "C"), (Ascii.eqb b "G"); reflexivity.
Qed.

(** X2: a symbol that pairs with [b] is different from [b] and pairs with
    no other symbol. *)
Theorem pair_check_partner_unique (a b : ascii) :
  pair_check a b = true ->
  a <> b /\ forall c, pair_check a c = true -> c = b.
Proof.
  rewrite pair_check_spec. unfold spec_compatible, watson_crick.
  intros Hab. apply bool_decide_eq_true in Hab.
  rewrite !elem_of_cons, elem_of_nil in Hab.
  assert (Hc : forall c, pair_check a c = true ->
            (a, c) = ("A", "U")%char \/ (a, c) = ("U", "A")%char
            \/ (a, c) = ("C", "G")%char \/ (a, c) = ("G", "C")%char).
  { intros c. rewrite pair_check_spec. unfold spec_compatible, watson_crick.
    intros Hac. apply bool_decide_eq_true in Hac.
    rewrite !elem_of_cons, elem_of_nil in Hac. tauto. }
  split.
  - destruct Hab as [Heq|[Heq|[Heq|[Heq|[]]]]]; inversion Heq; done.
  - intros c Hac. apply Hc in Hac.
    destruct Hab as [Heq|[Heq|[Heq|[Heq|[]]]]]; inversion Heq; subst;
      destruct Hac as [Hq|[Hq|[Hq|Hq]]]; inversion Hq; done.
Qed.

Lemma pair_check_partner_unique_witness :
  pair_check "G" "C" = true
  /\ "G"%char <> "C"%char /\ forall c, pair_check "G" c = true -> c = "C"%char.
Proof.
  split; [reflexivity|]. apply pair_check_partner_unique. reflexivity.
Defined.

(** ** The table *)

(** X3: for a size N >= 0, initialize returns the N x N table of zeros;
    the assignments of its two loops change nothing and stay in bounds. *)
Theorem initialize_all_zero (N : Z) :
  0 <= N ->
  initialize N = Ok (replicate (Z.to_nat N) (replicate (Z.to_nat N) 0)).
Proof.
  intros HN. rewrite (initialize_spec N HN). reflexivity.
Qed.

Lemma initialize_all_zero_witness :
  0 <= 3 /\ initialize 3 = Ok [[0; 0; 0]; [0; 0; 0]; [0; 0; 0]].
Proof.
  split; [lia|]. apply (initialize_all_zero 3). lia.
Defined.

(** X4: the table that nussinov prints is symmetric. *)
Theorem nussinov_table_symmetric fuel sequence :
  (length sequence < fuel)%nat ->
  exists structure DP,
    nussinov fuel sequence = Ok (structure, DP)
    /\ forall a b, 0 <= a < Z.of_nat (length sequence) ->
         0 <= b < Z.of_nat (length sequence) ->
         get2 DP a b = get2 DP b a.
Proof.
  intros Hfuel.
  destruct (nussinov_run fuel sequence Hfuel) as (structure & DP & Hn & [_ Hc] & _).
  exists structure, DP. split; [done|]. intros a b Ha Hb.
  rewrite !Hc by done. by rewrite Z.min_comm, Z.max_comm.
Qed.

Lemma nussinov_table_symmetric_witness :
  (length (seq_of "GGGAAAUCC") < 10)%nat
  /\ exists structure DP,
       nussinov 10 (seq_of "GGGAAAUCC") = Ok (structure, DP)
       /\ forall a b, 0 <= a < Z.of_nat (length (seq_of "GGGAAAUCC")) ->
            0 <= b < Z.of_nat (length (seq_of "GGGAAAUCC")) ->
            get2 DP a b = get2 DP b a.
Proof.
  split; [vm_compute; lia|].
  apply nussinov_table_symmetric; vm_compute; lia.
Defined.

(** X5: the cell (i, j), i <= j, of the table holds the largest number of
    pairs of a valid pairing of the window i..j: some pairing of the window
    has that many pairs and none has more. *)
Theorem table_cell_is_max_pairing fuel sequence :
  (length sequence < fuel)%nat ->
  exists structure DP,
    nussinov fuel sequence = Ok (structure, DP)
    /\ forall i j, 0 <= i -> i <= j -> j < Z.of_nat (length sequence) ->
         exists v,
           get2 DP i j = Ok v
           /\ (exists ps : pairs,
                 window_ok sequence i j ps /\ Z.of_nat (length ps) = v)
           /\ (forall ps : pairs,
                 window_ok sequence i j ps -> Z.of_nat (length ps) <= v).
Proof.
  intros Hfuel.
  destruct (nussinov_run fuel sequence Hfuel) as (structure & DP & Hn & Hf & _).
  exists structure, DP. split; [done|]. intros i j Hi Hij Hj.
  exists (spec_Score sequence i j). split; [by apply filled_upper|]. split.
  - apply score_achieved; lia.
  - intros ps. by apply (pairing_le_score sequence (Z.to_nat (j - i))).
Qed.

Lemma table_cell_is_max_pairing_witness :
  (length (seq_of "GGGAAAUCC") < 10)%nat
  /\ exists structure DP,
       nussinov 10 (seq_of "GGGAAAUCC") = Ok (structure, DP)
       /\ forall i j, 0 <= i -> i <= j ->
            j < Z.of_nat (length (seq_of "GGGAAAUCC")) ->
            exists v,
              get2 DP i j = Ok v
              /\ (exists ps : pairs,
                    window_ok (seq_of "GGGAAAUCC") i j ps
                    /\ Z.of_nat (length ps) = v)
              /\ (forall ps : pairs,
                    window_ok (seq_of "GGGAAAUCC") i j ps ->
                    Z.of_nat (length ps) <= v).
Proof.
  split; [vm_compute; lia|].
  apply table_cell_is_max_pairing; vm_compute; lia.
Defined.

(** X6: the structure that nussinov returns is a maximum pairing: no list
    of pairs that satisfies the pairing invariant on the sequence has more
    pairs. *)
Theorem nussinov_maximum fuel sequence (ps : pairs) :
  (length sequence < fuel)%nat ->
  pairing_invariant sequence ps ->
  exists structure DP,
    nussinov fuel sequence = Ok (structure, DP)
    /\ (length ps <= length structure)%nat.
Proof.
  intros Hfuel Hinv.
  destruct (nussinov_run fuel sequence Hfuel) as (structure & DP & Hn & _ & _ & Hc).
  exists structure, DP. split; [done|].
  apply invariant_window_ok in Hinv.
  apply (pairing_le_score sequence (length sequence)) in Hinv; lia.
Qed.

Lemma nussinov_maximum_witness :
  (length (seq_of "GGGAAAUCC") < 10)%nat
  /\ pairing_invariant (seq_of "GGGAAAUCC") [(0, 8)]
  /\ exists structure DP,
       nussinov 10 (seq_of "GGGAAAUCC") = Ok (structure, DP)
       /\ (length [(0, 8)%Z] <= length structure)%nat.
Proof.
  assert (Hinv : pairing_invariant (seq_of "GGGAAAUCC") [(0, 8)]).
  { split; [|split].
    - change (NoDup [0; 8]). repeat constructor; rewrite ?elem_of_cons, ?elem_of_nil; lia.
    - intros p Hp. apply list_elem_of_singleton in Hp as ->. simpl.
      split; [lia|]. split; [lia|]. exists "G"%char, "C"%char.
      split; [reflexivity|]. split; [reflexivity|].
      unfold watson_crick. rewrite !elem_of_cons. tauto.
    - intros p q Hp Hq. apply list_elem_of_singleton in Hp as ->.
      apply list_elem_of_singleton in Hq as ->. simpl. lia. }
  split; [vm_compute; lia|]. split; [exact Hinv|].
  apply nussinov_maximum; [vm_compute; lia|exact Hinv].
Defined.

(** X7: the table is monotone in the window: the cell of a window is at
    most the cell of any window that contains it. *)
Theorem nussinov_table_monotone fuel sequence :
  (length sequence < fuel)%nat ->
  exists structure DP,
    nussinov fuel sequence = Ok (structure, DP)
    /\ forall a b a' b', 0 <= a' -> a' <= a -> a <= b -> b <= b' ->
         b' < Z.of_nat (length sequence) ->
         exists v v',
           get2 DP a b = Ok v /\ get2 DP a' b' = Ok v' /\ v <= v'.
Proof.
  intros Hfuel.
  destruct (nussinov_run fuel sequence Hfuel) as (structure & DP & Hn & Hf & _).
  exists structure, DP. split; [done|]. intros a b a' b' Ha' Ha Hab Hb Hb'.
  exists (spec_Score sequence a b), (spec_Score sequence a' b').
  split; [apply filled_upper; [done|lia|lia]|].
  split; [apply filled_upper; [done|lia|lia]|].
  destruct (score_achieved sequence a b) as (ps & Hok & <-); [lia|lia|].
  apply (pairing_le_score sequence (Z.to_nat (b' - a'))); [lia|].
  eapply window_ok_weaken; [exact Hok|lia|lia].
Qed.

Lemma nussinov_table_monotone_witness :
  (length (seq_of "GGGAAAUCC") < 10)%nat
  /\ exists structure DP,
       nussinov 10 (seq_of "GGGAAAUCC") = Ok (structure, DP)
       /\ forall a b a' b', 0 <= a' -> a' <= a -> a <= b -> b <= b' ->
            b' < Z.of_nat (length (seq_of "GGGAAAUCC")) ->
            exists v v',
              get2 DP a b = Ok v /\ get2 DP a' b' = Ok v' /\ v <= v'.
Proof.
  split; [vm_compute; lia|].
  apply nussinov_table_monotone; vm_compute; lia.
Defined.

(** X8: the cells of two adjacent windows add up to at most the cell of
    their union. *)
Theorem nussinov_table_superadditive fuel sequence :
  (length sequence < fuel)%nat ->
  exists structure DP,
    nussinov fuel sequence = Ok (structure, DP)
    /\ forall i k j, 0 <= i -> i <= k -> k < j ->
         j < Z.of_nat (length sequence) ->
         exists l r v,
           get2 DP i k = Ok l /\ get2 DP (k + 1) j = Ok r
           /\ get2 DP i j = Ok v /\ l + r <= v.
Proof.
  intros Hfuel.
  destruct (nussinov_run fuel sequence Hfuel) as (structure & DP & Hn & Hf & _).
  exists structure, DP. split; [done|]. intros i k j Hi Hik Hkj Hj.
  exists (spec_Score sequence i k), (spec_Score sequence (k + 1) j),
    (spec_Score sequence i j).
  split; [apply filled_upper; [done|lia|lia]|].
  split; [apply filled_upper; [done|lia|lia]|].
  split; [apply filled_upper; [done|lia|lia]|].
  destruct (score_achieved sequence i k) as (o1 & Hok1 & <-); [lia|lia|].
  destruct (score_achieved sequence (k + 1) j) as (o2 & Hok2 & <-); [lia|lia|].
  pose proof (pairing_le_score sequence (Z.to_nat (j - i)) i j (o1 ++ o2)
                ltac:(lia)
                (window_ok_app sequence i k j o1 o2 ltac:(lia) ltac:(lia) Hok1 Hok2))
    as Hle.
  rewrite length_app in Hle. lia.
Qed.

Lemma nussinov_table_superadditive_witness :
  (length (seq_of "GGGAAAUCC") < 10)%nat
  /\ exists structure DP,
       nussinov 10 (seq_of "GGGAAAUCC") = Ok (structure, DP)
       /\ forall i k j, 0 <= i -> i <= k -> k < j ->
            j < Z.of_nat (length (seq_of "GGGAAAUCC")) ->
            exists l r v,
              get2 DP i k = Ok l /\ get2 DP (k + 1) j = Ok r
              /\ get2 DP i j = Ok v /\ l + r <= v.
Proof.
  split; [vm_compute; lia|].
  apply nussinov_table_superadditive; vm_compute; lia.
Defined.

(** X9: along a row of the table, above the diagonal, a cell is the cell to
    its left or one more: the two cases that the traceback tells apart by
    its skip test. *)
Theorem nussinov_table_row_step fuel sequence :
  (length sequence < fuel)%nat ->
  exists structure DP,
    nussinov fuel sequence = Ok (structure, DP)
    /\ forall i j, 0 <= i -> i < j -> j < Z.of_nat (length sequence) ->
         exists v v',
           get2 DP i (j - 1) = Ok v /\ get2 DP i j = Ok v'
           /\ (v' = v \/ v' = v + 1).
Proof.
  intros Hfuel.
  destruct (nussinov_run fuel sequence Hfuel) as (structure & DP & Hn & Hf & _).
  exists structure, DP. split; [done|]. intros i j Hi Hij Hj.
  exists (spec_Score sequence i (j - 1)), (spec_Score sequence i j).
  split; [apply filled_upper; [done|lia|lia]|].
  split; [apply filled_upper; [done|lia|lia]|].
  assert (spec_Score sequence i (j - 1) <= spec_Score sequence i j).
  { destruct (score_achieved sequence i (j - 1)) as (ps & Hok & <-); [lia|lia|].
    apply (pairing_le_score sequence (Z.to_nat (j - i))); [lia|].
    eapply window_ok_weaken; [exact Hok|lia|lia]. }
  assert (spec_Score sequence i j <= spec_Score sequence i (j - 1) + 1).
  { destruct (score_achieved sequence i j) as (ps & Hok & <-); [lia|lia|].
    destruct (window_ok_drop_last _ _ _ _ Hok) as (ps' & Hok' & Hlen).
    apply (pairing_le_score sequence (Z.to_nat (j - i))) in Hok'; lia. }
  lia.
Qed.

Lemma nussinov_table_row_step_witness :
  (length (seq_of "GGGAAAUCC") < 10)%nat
  /\ exists structure DP,
       nussinov 10 (seq_of "GGGAAAUCC") = Ok (structure, DP)
       /\ forall i j, 0 <= i -> i < j ->
            j < Z.of_nat (length (seq_of "GGGAAAUCC")) ->
            exists v v',
              get2 DP i (j - 1) = Ok v /\ get2 DP i j = Ok v'
              /\ (v' = v \/ v' = v + 1).
Proof.
  split; [vm_compute; lia|].
  apply nussinov_table_row_step; vm_compute; lia.
Defined.

(** X10: a cell (i, j), i <= j, of the table is not negative and at most
    half the number of positions of its window. *)
Theorem nussinov_table_cell_bound fuel sequence :
  (length sequence < fuel)%nat ->
  exists structure DP,
    nussinov fuel sequence = Ok (structure, DP)
    /\ forall i j, 0 <= i -> i <= j -> j < Z.of_nat (length sequence) ->
         exists v, get2 DP i j = Ok v /\ 0 <= v /\ 2 * v <= j - i + 1.
Proof.
  intros Hfuel.
  destruct (nussinov_run fuel sequence Hfuel) as (structure & DP & Hn & Hf & _).
  exists structure, DP. split; [done|]. intros i j Hi Hij Hj.
  exists (spec_Score sequence i j). split; [by apply filled_upper|].
  split; [apply spec_Score_nonneg|].
  destruct (score_achieved sequence i j) as (ps & Hok & <-); [lia|lia|].
  apply (window_ok_length sequence); [lia|done].
Qed.

Lemma nussinov_table_cell_bound_witness :
  (length (seq_of "GGGAAAUCC") < 10)%nat
  /\ exists structure DP,
       nussinov 10 (seq_of "GGGAAAUCC") = Ok (structure, DP)
       /\ forall i j, 0 <= i -> i <= j ->
            j < Z.of_nat (length (seq_of "GGGAAAUCC")) ->
            exists v, get2 DP i j = Ok v /\ 0 <= v /\ 2 * v <= j - i + 1.
Proof.
  split; [vm_compute; lia|].
  apply nussinov_table_cell_bound; vm_compute; lia.
Defined.

(** ** The returned structure *)

(** X11: nussinov returns no pair exactly when no two symbols at least five
    positions apart pass pair_check. *)
Theorem nussinov_empty_iff_no_compatible fuel sequence :
  (length sequence < fuel)%nat ->
  exists structure DP,
    nussinov fuel sequence = Ok (structure, DP)
    /\ (structure = [] <->
        forall (t j : nat) a b, (t + 5 <= j)%nat ->
          sequence !! t = Some a -> sequence !! j = Some b ->
          pair_check a b = false).
Proof.
  intros Hfuel.
  destruct (nussinov_run fuel sequence Hfuel)
    as (structure & DP & Hn & _ & Hw & Hc).
  exists structure, DP. split; [done|]. split.
  - intros -> t j a b Htj Ha Hb. apply not_true_is_false. intros Hpc.
    pose proof (lookup_lt_Some _ _ _ Hb) as Hlt.
    assert (Hok : window_ok sequence 0 (Z.of_nat j)
                    ((Z.of_nat t, Z.of_nat j) :: [] ++ [])).
    { apply window_ok_pair; try lia; try apply window_ok_nil.
      rewrite (compatible_at_lookup _ _ _ a b); by rewrite ?Nat2Z.id. }
    apply (window_ok_weaken _ _ _ 0 (Z.of_nat (length sequence) - 1)) in Hok;
      [|lia|lia].
    apply (pairing_le_score sequence (length sequence)) in Hok; [|lia].
    simpl in Hok, Hc. lia.
  - intros Hno. destruct structure as [|p rest]; [done|].
    destruct Hw as (Hw & _). apply Forall_cons in Hw as [(H0 & H5 & _ & Hcomp) _].
    unfold compatible_at in Hcomp.
    destruct (sequence !! Z.to_nat p.1) as [a|] eqn:Ha; [|done].
    destruct (sequence !! Z.to_nat p.2) as [b|] eqn:Hb; [|done].
    rewrite <- pair_check_spec in Hcomp.
    rewrite (Hno (Z.to_nat p.1) (Z.to_nat p.2) a b) in Hcomp; [done|lia|done|done].
Qed.

Lemma nussinov_empty_iff_no_compatible_witness :
  (length (seq_of "GGGAAAUCC") < 10)%nat
  /\ exists structure DP,
       nussinov 10 (seq_of "GGGAAAUCC") = Ok (structure, DP)
       /\ (structure = [] <->
           forall (t j : nat) a b, (t + 5 <= j)%nat ->
             seq_of "GGGAAAUCC" !! t = Some a ->
             seq_of "GGGAAAUCC" !! j = Some b ->
             pair_check a b = false).
Proof.
  split; [vm_compute; lia|].
  apply nussinov_empty_iff_no_compatible; vm_compute; lia.
Defined.

(** ** The traceback *)

(** X12: on any N x N table, a score table or not, whose cells keep the
    sums of the tests within [int], the traceback of a window inside the
    sequence returns without leaving the bounds of the table or the
    sequence; it keeps the pairs it was given and appends pairs of its
    window that satisfy the pairing invariant. *)
Theorem traceback_any_table_safe sequence (DP : table) fuel i j st :
  table_shape (Z.of_nat (length sequence)) DP ->
  int_cells DP ->
  0 <= i -> j < Z.of_nat (length sequence) ->
  (Z.to_nat (j - i) < fuel)%nat ->
  exists out,
    traceback fuel i j st DP sequence = Ok (st ++ out)
    /\ pairing_invariant sequence out
    /\ Forall (fun p => i <= p.1 /\ p.2 <= j) out.
Proof.
  intros Hs _ Hi Hj Hfuel.
  destruct (traceback_window sequence DP Hs fuel i j st Hi Hj Hfuel)
    as (out & Htb & Hok).
  exists out. split; [done|]. split.
  - by apply (window_ok_invariant sequence i j).
  - destruct Hok as (Hw & _). eapply Forall_impl; [exact Hw|].
    intros p (?&?&?&?). lia.
Qed.

Lemma traceback_any_table_safe_witness :
  table_shape (Z.of_nat (length (seq_of "AUAUAU"))) inconsistent_table
  /\ int_cells inconsistent_table
  /\ exists out,
       traceback 6 0 5 [(7, 9)] inconsistent_table (seq_of "AUAUAU")
       = Ok ([(7, 9)] ++ out)
       /\ pairing_invariant (seq_of "AUAUAU") out
       /\ Forall (fun p => 0 <= p.1 /\ p.2 <= 5) out.
Proof.
  assert (Hs : table_shape (Z.of_nat (length (seq_of "AUAUAU"))) inconsistent_table).
  { split; [reflexivity|]. vm_compute. repeat constructor. }
  assert (Hint : int_cells inconsistent_table).
  { repeat (constructor; try lia). }
  split; [exact Hs|]. split; [exact Hint|].
  apply traceback_any_table_safe;
    [exact Hs|exact Hint|lia|vm_compute; reflexivity|vm_compute; lia].
Defined.

(** X13: the traceback only appends: its result on a structure is that
    structure followed by its result on the empty structure, and it fails
    on the one exactly when it fails on the other. *)
Theorem traceback_appends fuel i j st (DP : table) sequence :
  traceback fuel i j st DP sequence
  = (do out <- traceback fuel i j [] DP sequence ; Ok (st ++ out)).
Proof.
  revert i j st. induction fuel as [|fuel IH]; intros i j st; [done|].
  simpl. destruct (j <=? i); [cbn [bind]; by rewrite app_nil_r|].
  destruct (get2 DP i j) as [dij| |]; try done.
  destruct (get2 DP i (j - 1)) as [dij1| |]; try done. cbn [bind].
  destruct (dij =? dij1); [apply IH|].
  apply traceback_scan_acc. intros a b st'. apply IH.
Qed.

(** ** The renderer *)

(** X14: write_structure does not depend on which way round a pair is
    written. *)
Theorem write_structure_orientation sequence (structure : pairs) :
  write_structure sequence (prod_swap <$> structure)
  = write_structure sequence structure.
Proof.
  unfold write_structure.
  generalize (replicate (length sequence) "."%char) as d.
  induction structure as [|p ps IH]; intros d; [done|].
  cbn [fmap list_fmap for_each]. destruct p as [a b]. cbn [prod_swap fst snd].
  rewrite (Z.min_comm b a), (Z.max_comm b a).
  destruct (set_char d (Z.min a b) "(") as [d0| |]; try done. cbn [bind].
  destruct (set_char d0 (Z.max a b) ")") as [d1| |]; try done. cbn [bind].
  apply IH.
Qed.

(** X15: write_structure stays inside the string exactly when both indices
    of every pair are positions of the sequence. *)
Theorem write_structure_in_bounds_iff sequence (structure : pairs) :
  (exists dot_bracket, write_structure sequence structure = Ok dot_bracket)
  <-> Forall (fun p => 0 <= p.1 < Z.of_nat (length sequence)
                    /\ 0 <= p.2 < Z.of_nat (length sequence)) structure.
Proof.
  unfold write_structure. split.
  - intros [d Hd]. apply write_loop_inv in Hd as (_ & Hb & _).
    by rewrite length_replicate in Hb.
  - intros Hb. apply write_loop_ok. by rewrite length_replicate.
Qed.

(** X16: whatever the pairs, a string that write_structure returns has the
    length of the sequence and holds only dots and brackets. *)
Theorem write_structure_result_shape sequence (structure : pairs) dot_bracket :
  write_structure sequence structure = Ok dot_bracket ->
  length dot_bracket = length sequence
  /\ Forall (fun c => c ∈ ["."; "("; ")"]%char) dot_bracket.
Proof.
  unfold write_structure. intros Hd.
  apply write_loop_inv in Hd as (Hlen & _ & Hchars).
  rewrite length_replicate in Hlen. split; [done|]. apply Hchars.
  apply Forall_replicate. apply elem_of_cons. by left.
Qed.

Lemma write_structure_result_shape_witness :
  write_structure (seq_of "AUAUAU") [(5, 0); (5, 1)] = Ok (seq_of "((...)")
  /\ length (seq_of "((...)") = length (seq_of "AUAUAU")
  /\ Forall (fun c => c ∈ ["."; "("; ")"]%char) (seq_of "((...)").
Proof.
  split; [reflexivity|].
  apply (write_structure_result_shape (seq_of "AUAUAU") [(5, 0); (5, 1)]).
  reflexivity.
Defined.

(** ** Moving a pairing to another sequence *)

Lemma indices_shift d (ps : pairs) :
  indices (shift_pairs d ps) = (fun x => x - d) <$> indices ps.
Proof.
  induction ps as [|p ps IH]; [done|].
  change (indices (shift_pairs d (p :: ps)))
    with ((p.1 - d) :: (p.2 - d) :: indices (shift_pairs d ps)).
  change (indices (p :: ps)) with (p.1 :: p.2 :: indices ps).
  by rewrite !fmap_cons, IH.
Qed.

Lemma window_ok_shift sequence sequence' d i j (ps : pairs) :
  0 <= i -> 0 <= i - d ->
  (forall t, i <= t <= j ->
     sequence' !! Z.to_nat (t - d) = sequence !! Z.to_nat t) ->
  window_ok sequence i j ps ->
  window_ok sequence' (i - d) (j - d) (shift_pairs d ps).
Proof.
  intros Hi Hid Hagree (Hw & Hnd & Hnc). split; [|split].
  - unfold shift_pairs. apply Forall_fmap. eapply Forall_impl; [exact Hw|].
    intros p (H1 & H2 & H3 & Hc). unfold in_window, compose. simpl.
    split; [lia|]. split; [lia|]. split; [lia|].
    unfold compatible_at in *. by rewrite !Hagree by lia.
  - rewrite indices_shift. apply NoDup_fmap_2; [|done]. intros x y. lia.
  - intros p' q' Hp Hq. unfold shift_pairs in Hp, Hq.
    apply list_elem_of_fmap in Hp as (p & -> & Hp).
    apply list_elem_of_fmap in Hq as (q & -> & Hq). simpl. intros Hlt.
    destruct (Hnc p q Hp Hq); lia.
Qed.

Lemma length_shift_pairs d (ps : pairs) : length (shift_pairs d ps) = length ps.
Proof. unfold shift_pairs. apply length_fmap. Qed.

(** Windows that hold the same symbols have the same score. *)
Lemma spec_Score_shift sequence sequence' d i j :
  0 <= i -> 0 <= i - d ->
  j < Z.of_nat (length sequence) -> j - d < Z.of_nat (length sequence') ->
  (forall t, i <= t <= j ->
     sequence' !! Z.to_nat (t - d) = sequence !! Z.to_nat t) ->
  spec_Score sequence i j = spec_Score sequence' (i - d) (j - d).
Proof.
  intros Hi Hid Hj Hjd Hagree. apply Z.le_antisymm.
  - destruct (score_achieved sequence i j) as (ps & Hok & <-); [lia|lia|].
    rewrite <- (length_shift_pairs d).
    apply (pairing_le_score sequence' (Z.to_nat (j - i))); [lia|].
    by apply (window_ok_shift sequence).
  - destruct (score_achieved sequence' (i - d) (j - d)) as (ps & Hok & <-); [lia|lia|].
    rewrite <- (length_shift_pairs (- d)).
    apply (pairing_le_score sequence (Z.to_nat (j - i))); [lia|].
    replace i with (i - d - - d) at 1 by lia.
    replace j with (j - d - - d) at 1 by lia.
    apply (window_ok_shift sequence'); [lia|lia| |done].
    intros t Ht. rewrite <- Hagree by lia. f_equal. lia.
Qed.

Lemma spec_compatible_sym (a b : ascii) : spec_compatible a b = spec_compatible b a.
Proof.
  rewrite <- !pair_check_spec. unfold pair_check.
  destruct (Ascii.eqb a "A"), (Ascii.eqb a "U"), (Ascii.eqb a "C"),
    (Ascii.eqb a "G"), (Ascii.eqb b "A"), (Ascii.eqb b "U"),
    (Ascii.eqb b "C"), (Ascii.eqb b "G"); reflexivity.
Qed.

Lemma indices_reflect c (ps : pairs) :
  indices (reflect_pairs c ps) ≡ₚ (fun x => c - x) <$> indices ps.
Proof.
  induction ps as [|p ps IH]; [done|].
  change (indices (reflect_pairs c (p :: ps)))
    with ((c - p.2) :: (c - p.1) :: indices (reflect_pairs c ps)).
  change (indices (p :: ps)) with (p.1 :: p.2 :: indices ps).
  rewrite !fmap_cons, IH. apply perm_swap.
Qed.

Lemma indices_first_inj (ps : pairs) p q :
  NoDup (indices ps) -> p ∈ ps -> q ∈ ps -> p.1 = q.1 -> p = q.
Proof.
  induction ps as [|r ps IH]; intros Hnd Hp Hq Heq; [by apply elem_of_nil in Hp|].
  change (indices (r :: ps)) with (r.1 :: r.2 :: indices ps) in Hnd.
  apply NoDup_cons in Hnd as [Hn1 Hnd]. apply NoDup_cons in Hnd as [Hn2 Hnd].
  rewrite elem_of_cons in Hn1.
  apply elem_of_cons in Hp as [->|Hp]; apply elem_of_cons in Hq as [->|Hq].
  - done.
  - destruct (indices_elem ps q Hq) as [Hq1 _]. rewrite <- Heq in Hq1. tauto.
  - destruct (indices_elem ps p Hp) as [Hp1 _]. rewrite Heq in Hp1. tauto.
  - by apply IH.
Qed.

Lemma window_ok_reflect sequence (ps : pairs) :
  window_ok sequence 0 (Z.of_nat (length sequence) - 1) ps ->
  window_ok (reverse sequence) 0 (Z.of_nat (length sequence) - 1)
    (reflect_pairs (Z.of_nat (length sequence) - 1) ps).
Proof.
  intros (Hw & Hnd & Hnc). rewrite Forall_forall in Hw.
  assert (Hrev : forall t, 0 <= t < Z.of_nat (length sequence) ->
            reverse sequence !! Z.to_nat (Z.of_nat (length sequence) - 1 - t)
            = sequence !! Z.to_nat t).
  { intros t Ht. rewrite reverse_lookup by lia. f_equal. lia. }
  split; [|split].
  - apply Forall_forall. intros p' Hp'. unfold reflect_pairs in Hp'.
    apply list_elem_of_fmap in Hp' as (p & -> & Hp).
    destruct (Hw p Hp) as (H1 & H2 & H3 & Hc). unfold in_window. simpl.
    split; [lia|]. split; [lia|]. split; [lia|].
    unfold compatible_at in *. rewrite !Hrev by lia.
    destruct (sequence !! Z.to_nat p.1) as [a|]; [|done].
    destruct (sequence !! Z.to_nat p.2) as [b|]; [|done].
    by rewrite spec_compatible_sym.
  - rewrite indices_reflect. apply NoDup_fmap_2; [|done]. intros x y. lia.
  - intros p' q' Hp' Hq'. unfold reflect_pairs in Hp', Hq'.
    apply list_elem_of_fmap in Hp' as (p & -> & Hp).
    apply list_elem_of_fmap in Hq' as (q & -> & Hq). simpl. intros Hlt.
    destruct (Z.lt_trichotomy p.1 q.1) as [Hpq|[Hpq|Hpq]].
    + right. lia.
    + pose proof (indices_first_inj ps p q Hnd Hp Hq Hpq). subst q. lia.
    + destruct (Hnc q p Hq Hp Hpq); [left|]; lia.
Qed.

(** ** Runs on related sequences *)

(** X17: the cell (i, j), i <= j, of the table of a sequence is the number
    of pairs that nussinov returns on the substring from position i to
    position j. *)
Theorem nussinov_substring fuel sequence (i j : nat) :
  (length sequence < fuel)%nat ->
  (i <= j)%nat -> (j < length sequence)%nat ->
  exists structure DP structure' DP',
    nussinov fuel sequence = Ok (structure, DP)
    /\ nussinov fuel (take (S j - i) (drop i sequence)) = Ok (structure', DP')
    /\ get2 DP (Z.of_nat i) (Z.of_nat j) = Ok (Z.of_nat (length structure')).
Proof.
  intros Hfuel Hij Hj.
  set (sub := take (S j - i) (drop i sequence)).
  assert (Hlen : length sub = (S j - i)%nat).
  { unfold sub. rewrite length_take, length_drop. lia. }
  destruct (nussinov_run fuel sequence Hfuel) as (structure & DP & Hn & Hf & _).
  destruct (nussinov_run fuel sub ltac:(lia)) as (structure' & DP' & Hn' & _ & _ & Hc').
  exists structure, DP, structure', DP'. split; [done|]. split; [done|].
  rewrite (filled_upper sequence DP _ _ Hf) by lia. f_equal. rewrite Hc', Hlen.
  rewrite (spec_Score_shift sequence sub (Z.of_nat i)); [f_equal; lia|lia|lia|lia|lia|].
  intros t Ht. unfold sub. rewrite lookup_take_lt by lia. rewrite lookup_drop.
  f_equal. lia.
Qed.

Lemma nussinov_substring_witness :
  (length (seq_of "GGGAAAUCC") < 10)%nat
  /\ (1 <= 7)%nat /\ (7 < length (seq_of "GGGAAAUCC"))%nat
  /\ exists structure DP structure' DP',
       nussinov 10 (seq_of "GGGAAAUCC") = Ok (structure, DP)
       /\ nussinov 10 (take (S 7 - 1) (drop 1 (seq_of "GGGAAAUCC")))
          = Ok (structure', DP')
       /\ get2 DP (Z.of_nat 1) (Z.of_nat 7) = Ok (Z.of_nat (length structure')).
Proof.
  split; [vm_compute; lia|]. split; [lia|]. split; [vm_compute; lia|].
  apply nussinov_substring; vm_compute; lia.
Defined.

(** X18: symbols added in front of a sequence and behind it never lower
    the number of pairs that nussinov returns. *)
Theorem nussinov_extension fuel (pre sequence post : list ascii) :
  (length (pre ++ sequence ++ post) < fuel)%nat ->
  exists structure DP structure' DP',
    nussinov fuel sequence = Ok (structure, DP)
    /\ nussinov fuel (pre ++ sequence ++ post) = Ok (structure', DP')
    /\ (length structure <= length structure')%nat.
Proof.
  intros Hfuel. pose proof Hfuel as Hlen. rewrite !length_app in Hlen.
  destruct (nussinov_run fuel sequence ltac:(lia))
    as (structure & DP & Hn & _ & Hw & _).
  destruct (nussinov_run fuel (pre ++ sequence ++ post) Hfuel)
    as (structure' & DP' & Hn' & _ & _ & Hc').
  exists structure, DP, structure', DP'. split; [done|]. split; [done|].
  apply (window_ok_shift sequence (pre ++ sequence ++ post)
           (- Z.of_nat (length pre))) in Hw; [|lia|lia|].
  - apply (window_ok_weaken _ _ _ 0
             (Z.of_nat (length (pre ++ sequence ++ post)) - 1)) in Hw.
    + apply (pairing_le_score _ (length (pre ++ sequence ++ post))) in Hw; [|lia].
      rewrite length_shift_pairs in Hw. lia.
    + lia.
    + rewrite !length_app. lia.
  - intros t Ht.
    rewrite lookup_app_r by lia. rewrite lookup_app_l by lia. f_equal. lia.
Qed.

Lemma nussinov_extension_witness :
  (length (seq_of "AU" ++ seq_of "GGGAAAUCC" ++ seq_of "G") < 13)%nat
  /\ exists structure DP structure' DP',
       nussinov 13 (seq_of "GGGAAAUCC") = Ok (structure, DP)
       /\ nussinov 13 (seq_of "AU" ++ seq_of "GGGAAAUCC" ++ seq_of "G")
          = Ok (structure', DP')
       /\ (length structure <= length structure')%nat.
Proof.
  split; [vm_compute; lia|].
  apply nussinov_extension; vm_compute; lia.
Defined.

(** X19: nussinov returns as many pairs on a sequence read backwards as on
    the sequence. *)
Theorem nussinov_reverse fuel sequence :
  (length sequence < fuel)%nat ->
  exists structure DP structure' DP',
    nussinov fuel sequence = Ok (structure, DP)
    /\ nussinov fuel (reverse sequence) = Ok (structure', DP')
    /\ length structure = length structure'.
Proof.
  intros Hfuel.
  destruct (nussinov_run fuel sequence Hfuel)
    as (structure & DP & Hn & _ & Hw & Hc).
  destruct (nussinov_run fuel (reverse sequence))
    as (structure' & DP' & Hn' & _ & Hw' & Hc'); [by rewrite length_reverse|].
  exists structure, DP, structure', DP'. split; [done|]. split; [done|].
  apply window_ok_reflect in Hw. apply window_ok_reflect in Hw'.
  rewrite reverse_involutive, length_reverse in Hw'.
  rewrite length_reverse in Hc'.
  apply (pairing_le_score _ (length sequence)) in Hw; [|lia].
  apply (pairing_le_score _ (length sequence)) in Hw'; [|lia].
  unfold reflect_pairs in Hw, Hw'. rewrite length_fmap in Hw, Hw'. lia.
Qed.

Lemma nussinov_reverse_witness :
  (length (seq_of "GGGAAAUCC") < 10)%nat
  /\ exists structure DP structure' DP',
       nussinov 10 (seq_of "GGGAAAUCC") = Ok (structure, DP)
       /\ nussinov 10 (reverse (seq_of "GGGAAAUCC")) = Ok (structure', DP')
       /\ length structure = length structure'.
Proof.
  split; [vm_compute; lia|].
  apply nussinov_reverse; vm_compute; lia.
Defined.

(** ** The score function *)

(** X20: whatever table it is given, OPT returns, for a window with
    0 <= i <= j + 1 and j < N, the largest number of pairs of a valid pairing
    of the window: some pairing of the window has that many pairs and none
    has more. *)
Theorem OPT_is_maximum fuel i j sequence (DP : table) :
  0 <= i -> i <= j + 1 -> j < Z.of_nat (length sequence) ->
  (Z.to_nat (j - i) < fuel)%nat ->
  exists v,
    OPT fuel i j sequence DP = Ok v
    /\ (exists ps : pairs,
          window_ok sequence i j ps /\ Z.of_nat (length ps) = v)
    /\ (forall ps : pairs,
          window_ok sequence i j ps -> Z.of_nat (length ps) <= v).
Proof.
  intros Hi _ Hj Hfuel. exists (spec_Score sequence i j).
  split; [by apply OPT_correct|]. split.
  - by apply score_achieved.
  - intros ps. by apply (pairing_le_score sequence (Z.to_nat (j - i))).
Qed.

Lemma OPT_is_maximum_witness :
  0 <= 1 /\ 1 <= 7 + 1 /\ 7 < Z.of_nat (length (seq_of "GGGAAAUCC"))
  /\ (Z.to_nat (7 - 1) < 7)%nat
  /\ exists v,
       OPT 7 1 7 (seq_of "GGGAAAUCC") [] = Ok v
       /\ (exists ps : pairs,
             window_ok (seq_of "GGGAAAUCC") 1 7 ps /\ Z.of_nat (length ps) = v)
       /\ (forall ps : pairs,
             window_ok (seq_of "GGGAAAUCC") 1 7 ps -> Z.of_nat (length ps) <= v).
Proof.
  split; [lia|]. split; [lia|]. split; [vm_compute; reflexivity|].
  split; [vm_compute; lia|].
  apply OPT_is_maximum; [lia|lia|vm_compute; reflexivity|vm_compute; lia].
Defined.
